(** * A shallow embedding of [Algo::LruCache] (lru-cache.cpp)

    The cache is a fixed arena of nodes threaded by two intrusive lists:
    [_bucket_list], a linear singly linked list built once by the
    constructor and never relinked afterwards, and [_usage_list], a doubly
    linked list kept in least-recently-used order.  [_buckets] holds, for
    every bucket index, an iterator into [_bucket_list].

    A node is identified by its position in [_arena].  An iterator of the
    singly linked list is [Some i] (the node at arena position [i]) or
    [None] (the [end()] iterator).  Each intrusive list is represented by
    the sequence of node positions it links, front first.

    [size_t] values are numbers of type [N]; the only product the program
    forms, [capacity * LoadFactor], is reduced modulo [2^64].  Behaviour the
    C++ standard leaves undefined (a remainder by zero, indexing a vector
    out of range, [front()] of an empty list, dereferencing an iterator of a
    node that is not linked) is the result [None] of the operation.  The
    exceptions that leave the constructor, those of its two [std::vector]
    members, are the outcome [Thrown] of a construction. *)

From Stdlib Require Import NArith Lia.
From stdpp Require Import base numbers option list sets strings.

Definition size_t_modulus : N := 2 ^ 64.

(** ** Intrusive lists as sequences of arena positions *)

Definition iterator := option nat.

(** [slist::push_front] and [list::push_front]. *)
Definition push_front (i : nat) (l : list nat) : list nat := i :: l.

(** [list::push_back]. *)
Definition push_back (l : list nat) (i : nat) : list nat := l ++ [i].

(** [list::pop_front]. *)
Definition pop_front (l : list nat) : list nat := tail l.

(** [list::front]; undefined on an empty list. *)
Definition front (l : list nat) : option nat := head l.

(** [list::erase] of the iterator to node [i]: unlinks that node. *)
Fixpoint erase (i : nat) (l : list nat) : list nat :=
  match l with
  | [] => []
  | j :: l' => if decide (j = i) then l' else j :: erase i l'
  end.

(** The nodes of a linear singly linked list from the node [i] to the end;
    [None] when [i] is not linked in the list. *)
Fixpoint nodes_from (l : list nat) (i : nat) : option (list nat) :=
  match l with
  | [] => None
  | j :: l' => if decide (j = i) then Some l else nodes_from l' i
  end.

(** The nodes an iterator still has to visit before it compares equal to
    [end()]. *)
Definition range (l : list nat) (it : iterator) : option (list nat) :=
  match it with
  | None => Some []
  | Some i => nodes_from l i
  end.

(** [std::next] of the iterator obtained by [s_iterator_to] for node [i]. *)
Definition s_next (l : list nat) (i : nat) : option iterator :=
  r ← nodes_from l i; Some (head (tail r)).

Section Algo.
Context {Key Val : Type} `{EqDecision Key}.

(** [Key()] and [Val()], the default-constructed key and value. *)
Variable Key_default : Key.
Variable Val_default : Val.
(** The template parameters [LoadFactor] and [Hash]; [Equal] is
    [std::equal_to<Key>], the equality of [Key]. *)
Variable LoadFactor : N.
Variable _key_hash : Key → N.

Record Node := mkNode {
  _key : Key;
  _val : Val;
  _cached_hash : N
}.

Record LruCache := mkLruCache {
  _buckets : list iterator;
  _arena : list Node;
  _bucket_list : list nat;
  _usage_list : list nat
}.

(** The constructor (lines 58-69). *)
Definition LruCache_ctor (capacity : N) : LruCache :=
  let nodes := seq 0 (N.to_nat capacity) in
  {| _buckets :=
       replicate (N.to_nat ((capacity * LoadFactor) mod size_t_modulus)) None;
     _arena :=
       replicate (N.to_nat capacity) (mkNode Key_default Val_default 0);
     _bucket_list := foldl (λ l i, push_front i l) [] nodes;
     _usage_list := foldl (λ l i, push_front i l) [] nodes |}.

(** [_key_hash(key) % _buckets.size()] (lines 80 and 114). *)
Definition bucket_hash (c : LruCache) (key : Key) : option N :=
  match N.of_nat (length (_buckets c)) with
  | 0%N => None
  | size => Some (_key_hash key mod size)%N
  end.

(** The [while] loop shared by [update] and [resolve]: [Some (Some i)]
    when the loop body finds the key in node [i], [Some None] when the
    loop is left without a match. *)
Fixpoint walk (arena : list Node) (hash : N) (key : Key) (r : list nat)
  : option (option nat) :=
  match r with
  | [] => Some None
  | i :: r' =>
      node ← arena !! i;
      if decide (_cached_hash node = hash) then
        if decide (key = _key node) then Some (Some i)
        else walk arena hash key r'
      else Some None
  end.

(** Lines 80-83 and 114-117 together with the loop: the bucket index of
    the key and the outcome of the chain walk. *)
Definition find (c : LruCache) (key : Key) : option (N * option nat) :=
  hash ← bucket_hash c key;
  it ← _buckets c !! N.to_nat hash;
  r ← range (_bucket_list c) it;
  found ← walk (_arena c) hash key r;
  Some (hash, found).

(** Lines 90-92 and 121-123. *)
Definition promote (usage : list nat) (i : nat) : list nat :=
  push_back (erase i usage) i.

(** [update] (lines 78-110). *)
Definition update (c : LruCache) (key : Key) (val : Val) : option LruCache :=
  '(hash, found) ← find c key;
  match found with
  | Some i =>
      node ← _arena c !! i;
      Some {| _buckets := _buckets c;
              _arena := <[i := mkNode (_key node) val (_cached_hash node)]> (_arena c);
              _bucket_list := _bucket_list c;
              _usage_list := promote (_usage_list c) i |}
  | None =>
      lru ← front (_usage_list c);
      node ← _arena c !! lru;
      let old := _cached_hash node in
      let arena1 := <[lru := mkNode key val old]> (_arena c) in
      next_bucket_it ← s_next (_bucket_list c) lru;
      head_of_old ←
        match next_bucket_it with
        | None => Some None
        | Some j =>
            next_node ← arena1 !! j;
            Some (if decide (_cached_hash next_node ≠ old) then None else Some j)
        end;
      _ ← _buckets c !! N.to_nat old;
      let buckets1 := <[N.to_nat old := head_of_old]> (_buckets c) in
      let buckets2 := <[N.to_nat hash := Some lru]> buckets1 in
      Some {| _buckets := buckets2;
              _arena := <[lru := mkNode key val hash]> arena1;
              _bucket_list := _bucket_list c;
              _usage_list := push_back (pop_front (_usage_list c)) lru |}
  end.

(** [resolve] (lines 112-129). *)
Definition resolve (c : LruCache) (key : Key) : option (Val * LruCache) :=
  '(_, found) ← find c key;
  match found with
  | Some i =>
      node ← _arena c !! i;
      Some (_val node,
            {| _buckets := _buckets c;
               _arena := _arena c;
               _bucket_list := _bucket_list c;
               _usage_list := promote (_usage_list c) i |})
  | None => Some (Val_default, c)
  end.

(** ** Derived notions used to state the properties *)

(** The outcome of the lookup loop for [key]: the node it stops in, if
    any.  [update] and [resolve] take their hit branch exactly when this
    is [Some (Some i)]. *)
Definition lookup (c : LruCache) (key : Key) : option (option nat) :=
  snd <$> find c key.

Definition hit (c : LruCache) (key : Key) : Prop :=
  ∃ i, lookup c key = Some (Some i).

Definition miss (c : LruCache) (key : Key) : Prop :=
  lookup c key = Some None.

(** The nodes the lookup loop of bucket [b] can visit: it starts at
    [_buckets[b]] and advances while the cached hash equals [b]. *)
Fixpoint run_of (arena : list Node) (hash : N) (r : list nat)
  : option (list nat) :=
  match r with
  | [] => Some []
  | i :: r' =>
      node ← arena !! i;
      if decide (_cached_hash node = hash) then
        l ← run_of arena hash r'; Some (i :: l)
      else Some []
  end.

Definition chain (c : LruCache) (b : nat) : option (list nat) :=
  it ← _buckets c !! b;
  r ← range (_bucket_list c) it;
  run_of (_arena c) (N.of_nat b) r.

(** The stored bucket index of the node at arena position [i]. *)
Definition bucket_index (c : LruCache) (i : nat) : option N :=
  _cached_hash <$> _arena c !! i.

(** The bucket-chain invariant in the specification's words: the walk of
    every bucket visits exactly the nodes whose stored bucket index is that
    bucket. *)
Definition chain_integrity (c : LruCache) : Prop :=
  ∀ b, b < length (_buckets c) →
    ∃ l, chain c b = Some l ∧
         ∀ i, i ∈ l ↔ bucket_index c i = Some (N.of_nat b).

(** What lines 101-104 store in the old bucket of the victim [lru] when
    [_bucket_list] is linked as the constructor leaves it, node [lru]
    followed by node [lru - 1]: the following node if its cached hash is
    the victim's old one, [end()] otherwise. *)
Definition next_in_bucket (c : LruCache) (lru : nat) (old : N) : iterator :=
  match lru with
  | 0 => None
  | S j => if decide (bucket_index c j = Some old) then Some j else None
  end.

(** ** Exceptions of the constructor (line 58)

    The constructor has no check of its own; the two vectors of its
    initialiser list are constructed in the order of their declaration
    (lines 134-135), [_buckets] before [_arena], and the exceptions of
    [std::vector] leave it.  [std::vector<T>(n)] throws [std::length_error]
    when [n] exceeds [max_size()], which is [PTRDIFF_MAX / sizeof(T)] in
    libstdc++; for [n = 0] it allocates nothing; otherwise it requests
    [n * sizeof(T)] bytes, and [std::bad_alloc] leaves it when the allocator
    does not provide them.  The body of the constructor (lines 59-69) links
    nodes and assigns iterators, which does not throw; the default
    constructors [Key()] and [Val()] of the nodes are values here and do
    not throw either, as those of [std::string] do not. *)

(** [sizeof(Node)], and whether the allocator provides a block of the
    given number of bytes to the constructor; the latter depends on the
    machine, not on the program. *)
Variable sizeof_Node : N.
Variable allocates : N → bool.

(** [InvalidCapacity] is the error that the specification names; nothing
    in the source throws it. *)
Inductive exception :=
| length_error
| bad_alloc
| InvalidCapacity.

(** How a call ends: it returns, or an exception leaves it. *)
Inductive outcome :=
| Returned (c : LruCache)
| Thrown (e : exception).

(** [sizeof] of an iterator of [BucketList], a pointer. *)
Definition sizeof_iterator : N := 8.

Definition ptrdiff_max : N := 2 ^ 63 - 1.

(** [std::vector<T>::max_size()]. *)
Definition max_size (sizeof_T : N) : N := (ptrdiff_max / sizeof_T)%N.

(** [std::vector<T>(n)]: the exception that leaves it, if any. *)
Definition vector_ctor (sizeof_T n : N) : option exception :=
  if decide (max_size sizeof_T < n)%N then Some length_error
  else if decide (n = 0%N) then None
  else if allocates (n * sizeof_T) then None
  else Some bad_alloc.

(** [LruCache instance(capacity)]. *)
Definition construct (capacity : N) : outcome :=
  match vector_ctor sizeof_iterator
          ((capacity * LoadFactor) mod size_t_modulus) with
  | Some e => Thrown e
  | None =>
      match vector_ctor sizeof_Node capacity with
      | Some e => Thrown e
      | None => Returned (LruCache_ctor capacity)
      end
  end.

Definition constructs (capacity : N) : bool :=
  match construct capacity with
  | Returned _ => true
  | Thrown _ => false
  end.

(** A run of [update] calls. *)
Fixpoint updates (c : LruCache) (kvs : list (Key * Val)) : option LruCache :=
  match kvs with
  | [] => Some c
  | (k, v) :: kvs' => c' ← update c k v; updates c' kvs'
  end.

(** A client's calls, and the answers a run of them gets: for every
    [resolve] whether the loop found the key (the return in line 124) or
    not (the return in line 128), and the value returned. *)
Inductive call :=
| Update (key : Key) (val : Val)
| Resolve (key : Key).

Fixpoint run (c : LruCache) (calls : list call) : option (list (bool * Val)) :=
  match calls with
  | [] => Some []
  | Update key val :: calls' => c' ← update c key val; run c' calls'
  | Resolve key :: calls' =>
      found ← lookup c key;
      '(val, c') ← resolve c key;
      answers ← run c' calls';
      Some ((bool_decide (is_Some found), val) :: answers)
  end.

(** Keys that are new to the cache: pairwise distinct, and stored in no
    node of the arena. *)
Definition fresh (c : LruCache) (keys : list Key) : Prop :=
  NoDup keys ∧
  Forall (λ key, Forall (λ node, _key node ≠ key) (_arena c)) keys.

(** The states the program can be in: the constructed cache and whatever
    [update] and [resolve] make of it. *)
Inductive reachable (capacity : N) : LruCache → Prop :=
| reach_ctor : reachable capacity (LruCache_ctor capacity)
| reach_update c key val c' :
    reachable capacity c → update c key val = Some c' →
    reachable capacity c'
| reach_resolve c key val c' :
    reachable capacity c → resolve c key = Some (val, c') →
    reachable capacity c'.

(** Promotion on read in the specification's words: after [resolve] has
    found [key], inserting [capacity] new keys keeps [key] in the cache and
    inserting [capacity + 1] new keys evicts it. *)
Definition promotion_on_read (capacity : N) : Prop :=
  ∀ c key val c0 kvs,
    reachable capacity c → hit c key → resolve c key = Some (val, c0) →
    fresh c0 (kvs.*1) →
    (length kvs = N.to_nat capacity →
     ∃ c', updates c0 kvs = Some c' ∧ hit c' key) ∧
    (length kvs = S (N.to_nat capacity) →
     ∃ c', updates c0 kvs = Some c' ∧ miss c' key).

(** The miss signal in the specification's words: what [resolve] returns
    when it does not find the key differs from whatever it returns when it
    finds one. *)
Definition explicit_miss_signal (capacity : N) : Prop :=
  ∀ c key val s c' key' val' s',
    reachable capacity c → miss c key → resolve c key = Some (val, s) →
    reachable capacity c' → hit c' key' → resolve c' key' = Some (val', s') →
    val ≠ val'.

(** Zero-capacity rejection in the specification's words. *)
Definition rejects_zero_capacity : Prop :=
  construct 0 = Thrown InvalidCapacity ∧
  ∀ capacity, (0 < capacity)%N → ∃ c, construct capacity = Returned c.

(** The keys that [resolve] finds.  A key that is found is the key of the
    node the loop stopped in, so these are among the keys of the arena. *)
Definition found (c : LruCache) (key : Key) : bool :=
  match lookup c key with
  | Some (Some _) => true
  | _ => false
  end.

Definition live_keys (c : LruCache) : list Key :=
  filter (λ key, found c key = true) (remove_dups (_key <$> _arena c)).

Definition call_key (x : call) : Key :=
  match x with
  | Update key _ => key
  | Resolve key => key
  end.

(** The capacities for which [_buckets] is not empty, so that the
    remainder in lines 80 and 114 is defined. *)
Definition usable (capacity : N) : Prop :=
  (0 < (capacity * LoadFactor) mod size_t_modulus)%N.

(** The representation invariant of a cache with [n] nodes. *)
Record wf (n : nat) (c : LruCache) : Prop := mkWf {
  wf_nodes : 0 < n;
  wf_arena : length (_arena c) = n;
  wf_size : 0 < length (_buckets c);
  wf_bucket_list : _bucket_list c = reverse (seq 0 n);
  wf_usage : _usage_list c ≡ₚ seq 0 n;
  wf_hash : ∀ i node, _arena c !! i = Some node →
            (_cached_hash node < N.of_nat (length (_buckets c)))%N;
  wf_head : ∀ b i, _buckets c !! b = Some (Some i) →
            bucket_index c i = Some (N.of_nat b)
}.

(** ** The rest of the class and a reference to compare it with *)

(** [get_instance] (lines 72-76).  The function-local static [instance] is
    [None] while it is not initialised.  A call that finds it so constructs
    it with its own argument; when that construction throws, the exception
    leaves the call and the static stays uninitialised, so that the next
    call constructs again.  A call that finds the instance returns it and
    ignores its argument.  The result is the outcome of the call and the
    static after it. *)
Definition get_instance (instance : option LruCache) (arg : N)
  : outcome * option LruCache :=
  match instance with
  | Some c => (Returned c, Some c)
  | None =>
      match construct arg with
      | Returned c => (Returned c, Some c)
      | Thrown e => (Thrown e, None)
      end
  end.

(** The static after a series of [get_instance] calls, each exception
    caught by the caller. *)
Fixpoint get_instances (instance : option LruCache) (args : list N)
  : option LruCache :=
  match args with
  | [] => instance
  | arg :: args' => get_instances (snd (get_instance instance arg)) args'
  end.

(** The cache after a series of calls. *)
Fixpoint exec (c : LruCache) (calls : list call) : option LruCache :=
  match calls with
  | [] => Some c
  | Update key val :: calls' => c' ← update c key val; exec c' calls'
  | Resolve key :: calls' => '(_, c') ← resolve c key; exec c' calls'
  end.

(** The node the constructor creates. *)
Definition empty_node : Node := mkNode Key_default Val_default 0.

(** The keys of a list fall into pairwise different buckets of a table of
    [size] entries, none of them into bucket 0. *)
Definition collision_free (size : N) (keys : list Key) : Prop :=
  (∀ key, key ∈ keys → (_key_hash key mod size ≠ 0)%N) ∧
  (∀ k1 k2, k1 ∈ keys → k2 ∈ keys →
            (_key_hash k1 mod size = _key_hash k2 mod size)%N → k1 = k2).

(** The reference: a least-recently-used list of at most [n] entries, the
    least recently used entry first. *)
Fixpoint lru_get (s : list (Key * Val)) (key : Key) : option Val :=
  match s with
  | [] => None
  | (k, v) :: s' => if decide (k = key) then Some v else lru_get s' key
  end.

Fixpoint lru_drop (key : Key) (s : list (Key * Val)) : list (Key * Val) :=
  match s with
  | [] => []
  | (k, v) :: s' => if decide (k = key) then s' else (k, v) :: lru_drop key s'
  end.

Definition lru_update (n : nat) (s : list (Key * Val)) (key : Key) (val : Val)
  : list (Key * Val) :=
  match lru_get s key with
  | Some _ => lru_drop key s ++ [(key, val)]
  | None => (if decide (length s < n) then s else tail s) ++ [(key, val)]
  end.

Definition lru_resolve (s : list (Key * Val)) (key : Key)
  : (bool * Val) * list (Key * Val) :=
  match lru_get s key with
  | Some v => ((true, v), lru_drop key s ++ [(key, v)])
  | None => ((false, Val_default), s)
  end.

Fixpoint lru_run (n : nat) (s : list (Key * Val)) (calls : list call)
  : list (bool * Val) :=
  match calls with
  | [] => []
  | Update key val :: calls' => lru_run n (lru_update n s key val) calls'
  | Resolve key :: calls' =>
      fst (lru_resolve s key) :: lru_run n (snd (lru_resolve s key)) calls'
  end.

(** How a cache represents a reference list: the usage list consists of
    nodes still as the constructor made them, followed by the nodes of the
    entries of the list in the same order; the node of an entry holds its
    key and value and is the head of the bucket of the key. *)
Definition holds (size : N) (c : LruCache) (w : nat) (kv : Key * Val) : Prop :=
  _arena c !! w = Some (mkNode kv.1 kv.2 (_key_hash kv.1 mod size)%N) ∧
  (_buckets c !! N.to_nat (_key_hash kv.1 mod size) : option iterator)
  = Some (Some w).

Definition represents (n : nat) (size : N) (c : LruCache)
    (s : list (Key * Val)) : Prop :=
  wf n c ∧ N.of_nat (length (_buckets c)) = size ∧ NoDup s.*1 ∧
  ∃ E W, _usage_list c = E ++ W ∧
         Forall (λ e, _arena c !! e = Some empty_node) E ∧
         Forall2 (holds size c) W s.

End Algo.

Arguments call : clear implicits.

(** ** The instance the program uses

    [std::hash<std::string>] is not defined by the repository: it comes
    with the C++ standard library the program is built with, and the
    standard leaves its values open.  The general theorems are therefore
    stated for an arbitrary hash.  To have a hash to evaluate examples with,
    the following transcribes the 64-bit byte hash of GNU libstdc++, the
    library of the build line in the source's header comment
    ([g++ -g -std=c++20 -O3 lru-cache.cpp]). *)
Module GnuHash.

Definition wrap (x : N) : N := (x mod size_t_modulus)%N.

Definition mul : N := 0xc6a4a7935bd1e995%N.

Definition seed : N := 0xc70f6907%N.

Definition shift_mix (v : N) : N := N.lxor v (N.shiftr v 47).

(** Up to eight bytes read as a little-endian number. *)
Fixpoint load_bytes (bs : list N) : N :=
  match bs with
  | [] => 0
  | b :: bs' => b + 256 * load_bytes bs'
  end%N.

Fixpoint hash_loop (bs : list N) (hash : N) : N :=
  match bs with
  | [] => hash
  | b0 :: b1 :: b2 :: b3 :: b4 :: b5 :: b6 :: b7 :: bs' =>
      let data := wrap (shift_mix (wrap (load_bytes [b0; b1; b2; b3; b4; b5; b6; b7] * mul)) * mul) in
      hash_loop bs' (wrap (N.lxor hash data * mul))
  | _ => wrap (N.lxor hash (load_bytes bs) * mul)
  end.

Definition hash_bytes (bs : list N) : N :=
  let hash := N.lxor seed (wrap (N.of_nat (length bs) * mul)) in
  let hash := hash_loop bs hash in
  let hash := wrap (shift_mix hash * mul) in
  shift_mix hash.

Definition std_hash (s : string) : N :=
  hash_bytes (Ascii.N_of_ascii <$> String.list_ascii_of_string s).

End GnuHash.

(** [using DnsCache = Algo::LruCache<std::string, std::string>], with the
    default [LoadFactor] 4. *)
Module DnsCache.

Definition t := LruCache (Key := string) (Val := string).

(** The instance that [DnsCache::get_instance(arg)] returns when it is the
    call that constructs it and the construction succeeds. *)
Definition get_instance (arg : N) : t := LruCache_ctor "" "" 4 arg.

(** [sizeof(Node)] on x86-64 with libstdc++: two [std::string] of 32
    bytes, a [size_t] and the three pointers of the two hooks. *)
Definition sizeof_Node : N := 96.

Definition update : t → string → string → option t :=
  update GnuHash.std_hash.

Definition resolve : t → string → option (string * t) :=
  resolve "" GnuHash.std_hash.

Definition lookup : t → string → option (option nat) :=
  lookup GnuHash.std_hash.

End DnsCache.

(** The calls of the basic test in [main] (lines 191-205). *)
Definition basic_test : list (call string string) :=
  [ Update "abc" "ABC"; Update "def" "DEF";
    Resolve "abc"; Resolve "def";
    Update "abc" "ABC!";
    Resolve "def"; Resolve "abc";
    Update "qwe" "QWE";
    Resolve "abc"; Resolve "qwe"; Resolve "def";
    Update "iop" "IOP";
    Resolve "qwe"; Resolve "iop"; Resolve "abc" ].

(** A hash that sends the four keys of the basic test to given buckets. *)
Definition bucket_table (a b c d : N) (key : string) : N :=
  if decide (key = "abc") then a
  else if decide (key = "def") then b
  else if decide (key = "qwe") then c
  else if decide (key = "iop") then d
  else 0%N.

Definition basic_test_answers : list (bool * string) :=
  [ (true, "ABC"); (true, "DEF"); (true, "DEF"); (true, "ABC!");
    (true, "ABC!"); (true, "QWE"); (false, "");
    (true, "QWE"); (true, "IOP"); (false, "") ].

(** States of a [DnsCache] of capacity 2 used in the examples. *)
Definition after_abc : DnsCache.t := Eval vm_compute in
  default (DnsCache.get_instance 2)
      (DnsCache.update (DnsCache.get_instance 2) "abc" "ABC").

Definition after_abc_def : DnsCache.t := Eval vm_compute in
  default after_abc (DnsCache.update after_abc "def" "DEF").

Definition after_abc_def_read : DnsCache.t := Eval vm_compute in
  default after_abc_def (snd <$> DnsCache.resolve after_abc_def "abc").

(** A cache in which the key "abc" is stored with the empty string as its
    value. *)
Definition abc_empty : DnsCache.t := Eval vm_compute in
  default (DnsCache.get_instance 2)
      (DnsCache.update (DnsCache.get_instance 2) "abc" "").

Definition abc_empty_read : DnsCache.t := Eval vm_compute in
  default abc_empty (snd <$> DnsCache.resolve abc_empty "abc").

(** The basic test of [main] (lines 188-206) as it is written: [ok] starts
    as [true], every [resolve] is compared with the expected string and the
    outcome is and-ed into [ok]; the result is the value of [ok] that
    decides which message line 206 prints. *)
Inductive statement :=
| Do_update (key val : string)
| Check_resolve (key expected : string).

Fixpoint run_statements (hash : string → N) (c : DnsCache.t)
    (body : list statement) (ok : bool) : option bool :=
  match body with
  | [] => Some ok
  | Do_update key val :: body' =>
      c' ← update hash c key val; run_statements hash c' body' ok
  | Check_resolve key expected :: body' =>
      '(val, c') ← resolve "" hash c key;
      run_statements hash c' body' (ok && bool_decide (val = expected))
  end.

Definition main_body : list statement :=
  [ Do_update "abc" "ABC"; Do_update "def" "DEF";
    Check_resolve "abc" "ABC"; Check_resolve "def" "DEF";
    Do_update "abc" "ABC!";
    Check_resolve "def" "DEF"; Check_resolve "abc" "ABC!";
    Do_update "qwe" "QWE";
    Check_resolve "abc" "ABC!"; Check_resolve "qwe" "QWE";
    Check_resolve "def" "";
    Do_update "iop" "IOP";
    Check_resolve "qwe" "QWE"; Check_resolve "iop" "IOP";
    Check_resolve "abc" "" ].

(** [main] (lines 185-206): the first call of [get_instance], with
    argument 2, and the statements of the basic test on the instance it
    returns.  The program asks the allocator for two blocks, the eight
    bucket entries and the two nodes of that instance, and the run is one
    in which the allocator provides what it is asked for. *)
Definition main (hash : string → N) : option bool :=
  match get_instance "" "" 4 DnsCache.sizeof_Node (λ _, true) None 2 with
  | (Returned lru_cache, _) => run_statements hash lru_cache main_body true
  | (Thrown _, _) => None
  end.

Definition statement_key (x : statement) : string :=
  match x with
  | Do_update key _ => key
  | Check_resolve key _ => key
  end.

(** Calls on three keys that the hash of GNU libstdc++ puts into the
    buckets 1, 6 and 7 of a cache of capacity 2. *)
Definition three_keys : list (call string string) :=
  [ Update "abc" "A"; Update "qwe" "Q"; Resolve "abc";
    Update "ghi" "G";
    Resolve "qwe"; Resolve "abc"; Resolve "ghi" ].

(** The bucket indices of a cache of capacity 2. *)
Definition buckets8 : list N := [0; 1; 2; 3; 4; 5; 6; 7]%N.

(** * Properties *)

#[local] Arguments seq : simpl never.
#[local] Arguments N.modulo : simpl never.
#[local] Arguments N.of_nat : simpl never.
#[local] Arguments N.to_nat : simpl never.

(** ** The list representation *)

Lemma erase_perm (i : nat) (l : list nat) : i ∈ l → i :: erase i l ≡ₚ l.
Proof.
  induction l as [|j l IH]; simpl; intros Hin.
  - by apply elem_of_nil in Hin.
  - case_decide as Hj; [by subst|].
    apply elem_of_cons in Hin as [->|Hin]; [done|].
    rewrite Permutation_swap. by rewrite IH.
Qed.

Lemma promote_perm (i : nat) (l : list nat) : i ∈ l → promote l i ≡ₚ l.
Proof.
  intros Hin. unfold promote, push_back.
  rewrite <- Permutation_cons_append. by apply erase_perm.
Qed.

Lemma rotate_perm (i : nat) (l : list nat) :
  front l = Some i → push_back (pop_front l) i ≡ₚ l.
Proof.
  destruct l as [|j l]; simpl; [done|]. intros [= ->].
  unfold push_back. by rewrite <- Permutation_cons_append.
Qed.

Lemma push_front_all (l acc : list nat) :
  foldl (λ l i, push_front i l) acc l = reverse l ++ acc.
Proof.
  revert acc. induction l as [|i l IH]; intros acc; simpl; [done|].
  rewrite IH, reverse_cons. by rewrite <- app_assoc.
Qed.

Lemma slots_S (n : nat) : reverse (seq 0 (S n)) = n :: reverse (seq 0 n).
Proof. by rewrite seq_S, reverse_snoc. Qed.

Lemma nodes_from_slots (n i : nat) :
  i < n → nodes_from (reverse (seq 0 n)) i = Some (reverse (seq 0 (S i))).
Proof.
  induction n as [|n IH]; intros Hi; [lia|].
  rewrite slots_S. cbn [nodes_from]. case_decide as Hn.
  - subst. by rewrite slots_S.
  - apply IH. lia.
Qed.

Lemma s_next_slots (n i : nat) :
  i < n →
  s_next (reverse (seq 0 n)) i
  = Some (match i with 0 => None | S j => Some j end).
Proof.
  intros Hi. unfold s_next. rewrite (nodes_from_slots n i Hi), slots_S.
  cbn [mbind option_bind tail]. destruct i as [|j]; [done|]. by rewrite slots_S.
Qed.

Lemma elem_of_slots (n i : nat) : i ∈ reverse (seq 0 n) ↔ i < n.
Proof. rewrite elem_of_reverse, elem_of_seq. lia. Qed.

Section Properties.
Context {Key Val : Type} `{EqDecision Key}.
Variable Key_default : Key.
Variable Val_default : Val.
Variable LoadFactor : N.
Variable _key_hash : Key → N.

Abbreviation Node := (Node (Key := Key) (Val := Val)).
Abbreviation LruCache := (LruCache (Key := Key) (Val := Val)).
Abbreviation LruCache_ctor := (LruCache_ctor Key_default Val_default LoadFactor).
Abbreviation bucket_hash := (bucket_hash _key_hash).
Abbreviation find := (find _key_hash).
Abbreviation lookup := (lookup _key_hash).
Abbreviation hit := (hit _key_hash).
Abbreviation miss := (miss _key_hash).
Abbreviation update := (update _key_hash).
Abbreviation updates := (updates _key_hash).
Abbreviation resolve := (resolve Val_default _key_hash).
Abbreviation run := (run Val_default _key_hash).
Abbreviation reachable := (reachable Key_default Val_default LoadFactor _key_hash).
Abbreviation usable := (usable LoadFactor).
Abbreviation found := (found _key_hash).
Abbreviation live_keys := (live_keys _key_hash).
Abbreviation promotion_on_read :=
  (promotion_on_read Key_default Val_default LoadFactor _key_hash).

(** ** The lookup loop *)

Lemma walk_inv (arena : list Node) (hash : N) (key : Key) (r : list nat) (i : nat) :
  walk arena hash key r = Some (Some i) →
  i ∈ r ∧ ∃ node, arena !! i = Some node ∧ _key node = key ∧ _cached_hash node = hash.
Proof.
  induction r as [|j r IH]; simpl; [done|].
  destruct (arena !! j) as [node|] eqn:Hj; simpl; [|done].
  repeat case_decide; intros Hw.
  - injection Hw as ->. split; [left|]. by exists node.
  - destruct (IH Hw) as [? ?]. split; [by right|done].
  - done.
Qed.

Lemma walk_total (arena : list Node) (hash : N) (key : Key) (r : list nat) :
  (∀ i, i ∈ r → i < length arena) → is_Some (walk arena hash key r).
Proof.
  induction r as [|j r IH]; simpl; intros Hr; [by eexists|].
  destruct (lookup_lt_is_Some_2 arena j) as [node Hj]; [apply Hr; left|].
  rewrite Hj. simpl. repeat case_decide; try by eexists.
  apply IH. intros i Hi. apply Hr. by right.
Qed.

Lemma bucket_hash_eq (c : LruCache) (key : Key) :
  0 < length (_buckets c) →
  bucket_hash c key = Some (_key_hash key mod N.of_nat (length (_buckets c)))%N.
Proof.
  intros Hs. unfold bucket_hash.
  destruct (N.of_nat (length (_buckets c))) eqn:Hn; [lia|done].
Qed.

Lemma find_inv (c : LruCache) (key : Key) (hash : N) (i : nat) :
  find c key = Some (hash, Some i) →
  ∃ node, _arena c !! i = Some node ∧ _key node = key ∧ _cached_hash node = hash.
Proof.
  unfold find. intros Hf.
  destruct (bucket_hash c key) as [h|]; simpl in Hf; [|done].
  destruct (_buckets c !! N.to_nat h) as [it|]; simpl in Hf; [|done].
  destruct (range (_bucket_list c) it) as [r|]; simpl in Hf; [|done].
  destruct (walk (_arena c) h key r) as [found|] eqn:Hw; simpl in Hf; [|done].
  injection Hf as -> ->. by apply walk_inv in Hw as [_ ?].
Qed.

Lemma hash_in_range (c : LruCache) (key : Key) :
  0 < length (_buckets c) →
  N.to_nat (_key_hash key mod N.of_nat (length (_buckets c))) < length (_buckets c).
Proof.
  intros Hs.
  assert (_key_hash key mod N.of_nat (length (_buckets c))
          < N.of_nat (length (_buckets c)))%N by (apply N.mod_lt; lia).
  lia.
Qed.

Lemma head_in_arena (n : nat) (c : LruCache) (b i : nat) :
  wf n c → _buckets c !! b = Some (Some i) → i < n.
Proof.
  intros Hwf Hb. apply (wf_head _ _ Hwf) in Hb. unfold bucket_index in Hb.
  destruct (_arena c !! i) as [node|] eqn:Hi; [|done].
  rewrite <- (wf_arena _ _ Hwf). by apply lookup_lt_is_Some_1; eexists.
Qed.

Lemma range_wf (n : nat) (c : LruCache) (b : nat) (it : iterator) :
  wf n c → _buckets c !! b = Some it →
  range (_bucket_list c) it
  = Some (match it with None => [] | Some i => reverse (seq 0 (S i)) end)
  ∧ ∀ i, it = Some i → i < n.
Proof.
  intros Hwf Hb. destruct it as [i|]; simpl; [|done].
  pose proof (head_in_arena n c b i Hwf Hb) as Hi.
  rewrite (wf_bucket_list _ _ Hwf). split; [by apply nodes_from_slots|].
  by intros ? [= <-].
Qed.

Lemma find_total (n : nat) (c : LruCache) (key : Key) :
  wf n c →
  ∃ found,
    find c key
    = Some ((_key_hash key mod N.of_nat (length (_buckets c)))%N, found).
Proof.
  intros Hwf. pose proof (wf_size _ _ Hwf) as Hs.
  unfold find. rewrite (bucket_hash_eq c key Hs). simpl.
  destruct (lookup_lt_is_Some_2 (_buckets c) _ (hash_in_range c key Hs))
    as [it Hit].
  rewrite Hit. simpl.
  destruct (range_wf n c _ it Hwf Hit) as [-> Hlt]. simpl.
  match goal with |- context [walk ?a ?h ?k ?r] =>
    destruct (walk_total a h k r) as [found Hw] end.
  - intros i Hi. destruct it as [j|]; [|by apply elem_of_nil in Hi].
    apply elem_of_slots in Hi. rewrite (wf_arena _ _ Hwf).
    specialize (Hlt j eq_refl). lia.
  - rewrite Hw. simpl. by exists found.
Qed.

Lemma lookup_total (n : nat) (c : LruCache) (key : Key) :
  wf n c → hit c key ∨ miss c key.
Proof.
  intros Hwf. destruct (find_total n c key Hwf) as [[i|] Hf].
  - left. exists i. unfold lookup. by rewrite Hf.
  - right. unfold miss, lookup. by rewrite Hf.
Qed.

(** ** The two branches of [update] and of [resolve] *)

Lemma update_hit_eq (c : LruCache) (key : Key) (val : Val) (hash : N) (i : nat) :
  find c key = Some (hash, Some i) →
  update c key val
  = Some {| _buckets := _buckets c;
            _arena := <[i := mkNode key val hash]> (_arena c);
            _bucket_list := _bucket_list c;
            _usage_list := promote (_usage_list c) i |}.
Proof.
  intros Hf. unfold update. rewrite Hf. simpl.
  destruct (find_inv c key hash i Hf) as (node & -> & <- & <-). done.
Qed.

Lemma usage_front (n : nat) (c : LruCache) :
  wf n c →
  ∃ lru rest, _usage_list c = lru :: rest ∧ lru < n ∧ lru ∉ rest.
Proof.
  intros Hwf. pose proof (wf_usage _ _ Hwf) as Hp.
  destruct (_usage_list c) as [|lru rest] eqn:Hu.
  - apply Permutation_nil in Hp. pose proof (wf_nodes _ _ Hwf).
    destruct n; [lia|]. by rewrite seq_S in Hp; destruct (seq 0 n).
  - exists lru, rest. split; [done|]. split.
    + assert (lru ∈ seq 0 n) as Hin by (rewrite <- Hp; left).
      apply elem_of_seq in Hin. lia.
    + assert (NoDup (lru :: rest)) as Hnd by (rewrite Hp; apply NoDup_seq).
      by apply NoDup_cons in Hnd as [? _].
Qed.

Lemma update_miss_eq (n : nat) (c : LruCache) (key : Key) (val : Val) (hash : N) :
  wf n c → find c key = Some (hash, None) →
  ∃ lru rest node,
    _usage_list c = lru :: rest ∧ _arena c !! lru = Some node ∧
    update c key val
    = Some {| _buckets :=
                <[N.to_nat hash := Some lru]>
                  (<[N.to_nat (_cached_hash node) :=
                       next_in_bucket c lru (_cached_hash node)]> (_buckets c));
              _arena := <[lru := mkNode key val hash]> (_arena c);
              _bucket_list := _bucket_list c;
              _usage_list := rest ++ [lru] |}.
Proof.
  intros Hwf Hf. destruct (usage_front n c Hwf) as (lru & rest & Hu & Hlru & _).
  destruct (lookup_lt_is_Some_2 (_arena c) lru) as [node Hnode];
    [by rewrite (wf_arena _ _ Hwf)|].
  exists lru, rest, node. split; [done|]. split; [done|].
  unfold update. rewrite Hf, Hu. simpl. rewrite Hnode. simpl.
  rewrite (wf_bucket_list _ _ Hwf), (s_next_slots n lru Hlru). simpl.
  pose proof (wf_hash _ _ Hwf lru node Hnode) as Hold.
  destruct (lookup_lt_is_Some_2 (_buckets c) (N.to_nat (_cached_hash node)))
    as [it Hit]; [lia|].
  rewrite list_insert_insert_eq.
  destruct lru as [|j]; simpl.
  - by rewrite Hit.
  - rewrite list_lookup_insert_ne by lia.
    destruct (lookup_lt_is_Some_2 (_arena c) j) as [nj Hnj];
      [rewrite (wf_arena _ _ Hwf); lia|].
    rewrite Hnj. simpl. rewrite Hit. simpl.
    unfold bucket_index. rewrite Hnj. simpl.
    repeat case_decide; try done; congruence.
Qed.

Lemma resolve_hit_eq (c : LruCache) (key : Key) (hash : N) (i : nat) :
  find c key = Some (hash, Some i) →
  ∃ node, _arena c !! i = Some node ∧
    resolve c key
    = Some (_val node,
            {| _buckets := _buckets c;
               _arena := _arena c;
               _bucket_list := _bucket_list c;
               _usage_list := promote (_usage_list c) i |}).
Proof.
  intros Hf. destruct (find_inv c key hash i Hf) as (node & Hnode & _).
  exists node. split; [done|]. unfold resolve. rewrite Hf. simpl.
  by rewrite Hnode.
Qed.

Lemma resolve_miss_eq (c : LruCache) (key : Key) (hash : N) :
  find c key = Some (hash, None) → resolve c key = Some (Val_default, c).
Proof. intros Hf. unfold resolve. by rewrite Hf. Qed.

(** ** The representation invariant *)

Lemma usable_nodes (capacity : N) : usable capacity → 0 < N.to_nat capacity.
Proof.
  unfold usable. intros Hu. destruct capacity as [|p]; [|lia].
  rewrite N.mul_0_l in Hu. by rewrite N.Div0.mod_0_l in Hu.
Qed.

Lemma ctor_wf (capacity : N) :
  usable capacity → wf (N.to_nat capacity) (LruCache_ctor capacity).
Proof.
  intros Hu. pose proof (usable_nodes capacity Hu).
  unfold usable in Hu. split; simpl.
  - done.
  - by rewrite length_replicate.
  - rewrite length_replicate. lia.
  - rewrite push_front_all. by rewrite app_nil_r.
  - rewrite push_front_all, app_nil_r. by rewrite reverse_Permutation.
  - intros i node [-> _]%lookup_replicate. simpl.
    rewrite length_replicate. lia.
  - intros b i [? _]%lookup_replicate. done.
Qed.

Lemma bucket_index_insert (c : LruCache) (arena : list Node) (i j : nat)
    (node : Node) :
  bucket_index c i = Some (_cached_hash node) → arena = <[i := node]> (_arena c) →
  (_cached_hash <$> arena !! j) = bucket_index c j.
Proof.
  unfold bucket_index. intros Hi ->.
  destruct (decide (i = j)) as [<-|Hne]; [|by rewrite list_lookup_insert_ne].
  destruct (_arena c !! i) eqn:Hn; [|done].
  rewrite list_lookup_insert_eq; [done|]. by apply lookup_lt_is_Some_1; eexists.
Qed.

Lemma update_wf (n : nat) (c c' : LruCache) (key : Key) (val : Val) :
  wf n c → update c key val = Some c' → wf n c'.
Proof.
  intros Hwf. destruct (find_total n c key Hwf) as [[i|] Hf].
  - rewrite (update_hit_eq c key val _ i Hf). intros [= <-].
    destruct (find_inv c key _ i Hf) as (node & Hnode & Hk & Hh).
    assert (i < n) as Hi.
    { rewrite <- (wf_arena _ _ Hwf). by apply lookup_lt_is_Some_1; eexists. }
    assert (∀ j, (_cached_hash <$> <[i := mkNode key val (_cached_hash node)]> (_arena c) !! j)
                 = bucket_index c j) as Hsame.
    { intros j. eapply bucket_index_insert; [|done].
      unfold bucket_index. by rewrite Hnode. }
    rewrite <- Hh. destruct Hwf. split; simpl; try done.
    + by rewrite length_insert.
    + rewrite promote_perm; [done|]. rewrite wf_usage0. apply elem_of_seq. lia.
    + intros j nj Hj. specialize (Hsame j). rewrite Hj in Hsame. simpl in Hsame.
      unfold bucket_index in Hsame.
      destruct (_arena c !! j) as [oj|] eqn:Hoj; [|done].
      injection Hsame as ->. by eapply wf_hash0.
    + intros b j Hb. unfold bucket_index. simpl. rewrite Hsame. by apply wf_head0.
  - destruct (update_miss_eq n c key val _ Hwf Hf)
      as (lru & rest & node & Hu & Hnode & ->).
    intros [= <-].
    pose proof (wf_size _ _ Hwf) as Hs.
    pose proof (hash_in_range c key Hs) as Hhash.
    set (hash := (_key_hash key mod N.of_nat (length (_buckets c)))%N) in *.
    assert (lru < length (_arena c)) as Hlru
      by (by apply lookup_lt_is_Some_1; eexists).
    destruct Hwf. split; simpl; try done.
    + by rewrite length_insert.
    + by rewrite !length_insert.
    + rewrite <- wf_usage0, Hu. by rewrite <- Permutation_cons_append.
    + rewrite !length_insert. intros j nj [(-> & <- & _)|[_ Hj]]%list_lookup_insert_Some.
      * simpl. lia.
      * by eapply wf_hash0.
    + intros b j Hb. unfold bucket_index. simpl.
      apply list_lookup_insert_Some in Hb as [(<- & [= <-] & _)|[Hne Hb]].
      * rewrite list_lookup_insert_eq by done. simpl. f_equal. lia.
      * assert (j ≠ lru ∧ bucket_index c j = Some (N.of_nat b)) as [Hj Hbj].
        { apply list_lookup_insert_Some in Hb as [(<- & Hnext & _)|[Hne' Hb]].
          - unfold next_in_bucket in Hnext. destruct lru as [|l]; [done|].
            case_decide as Hd; [|done]. injection Hnext as <-.
            split; [lia|]. rewrite Hd. f_equal. lia.
          - pose proof (wf_head0 b j Hb) as Hbj. split; [|done].
            intros ->. unfold bucket_index in Hbj. rewrite Hnode in Hbj.
            simpl in Hbj. injection Hbj as Hbj. apply Hne'. rewrite Hbj. lia. }
        rewrite list_lookup_insert_ne by done. done.
Qed.

Lemma update_total (n : nat) (c : LruCache) (key : Key) (val : Val) :
  wf n c → ∃ c', update c key val = Some c' ∧ wf n c'.
Proof.
  intros Hwf.
  assert (is_Some (update c key val)) as [c' Hc'].
  { destruct (find_total n c key Hwf) as [[i|] Hf].
    - rewrite (update_hit_eq c key val _ i Hf). by eexists.
    - destruct (update_miss_eq n c key val _ Hwf Hf) as (? & ? & ? & _ & _ & ->).
      by eexists. }
  exists c'. split; [done|]. by eapply update_wf.
Qed.

Lemma resolve_wf (n : nat) (c c' : LruCache) (key : Key) (val : Val) :
  wf n c → resolve c key = Some (val, c') → wf n c'.
Proof.
  intros Hwf. destruct (find_total n c key Hwf) as [[i|] Hf].
  - destruct (resolve_hit_eq c key _ i Hf) as (node & Hnode & ->).
    intros [= _ <-].
    assert (i < n) as Hi.
    { rewrite <- (wf_arena _ _ Hwf). by apply lookup_lt_is_Some_1; eexists. }
    destruct Hwf. split; simpl; try done.
    rewrite promote_perm; [done|]. rewrite wf_usage0. apply elem_of_seq. lia.
  - rewrite (resolve_miss_eq c key _ Hf). by intros [= _ <-].
Qed.

Lemma resolve_total (n : nat) (c : LruCache) (key : Key) :
  wf n c → ∃ val c', resolve c key = Some (val, c') ∧ wf n c'.
Proof.
  intros Hwf.
  assert (is_Some (resolve c key)) as [[val c'] Hc'].
  { destruct (find_total n c key Hwf) as [[i|] Hf].
    - destruct (resolve_hit_eq c key _ i Hf) as (node & _ & ->). by eexists.
    - rewrite (resolve_miss_eq c key _ Hf). by eexists. }
  exists val, c'. split; [done|]. by eapply resolve_wf.
Qed.

Lemma reachable_wf (capacity : N) (c : LruCache) :
  usable capacity → reachable capacity c → wf (N.to_nat capacity) c.
Proof.
  intros Hu Hr. induction Hr as [|c key val c' _ IH Hup|c key val c' _ IH Hre].
  - by apply ctor_wf.
  - by eapply update_wf.
  - by eapply resolve_wf.
Qed.

(** ** After an [update] the key is found *)

Lemma walk_ext (arena arena' : list Node) (hash : N) (key : Key) (r : list nat) :
  (∀ j, j ∈ r →
        (λ node, (_key node, _cached_hash node)) <$> arena' !! j
        = (λ node, (_key node, _cached_hash node)) <$> arena !! j) →
  walk arena' hash key r = walk arena hash key r.
Proof.
  induction r as [|j r IH]; intros Hr; simpl; [done|].
  pose proof (Hr j ltac:(left)) as Hj.
  destruct (arena' !! j) as [n'|], (arena !! j) as [n0|]; simpl in *; try done.
  injection Hj as -> ->. rewrite IH; [done|]. intros; apply Hr. by right.
Qed.

Lemma update_find (n : nat) (c c1 : LruCache) (key : Key) (val : Val) :
  wf n c → update c key val = Some c1 →
  ∃ hash i,
    find c1 key = Some (hash, Some i) ∧
    _arena c1 !! i = Some (mkNode key val hash).
Proof.
  intros Hwf. destruct (find_total n c key Hwf) as [[i|] Hf].
  - rewrite (update_hit_eq c key val _ i Hf). intros [= <-].
    destruct (find_inv c key _ i Hf) as (node & Hnode & Hk & Hh).
    eexists _, i. split.
    + rewrite <- Hf. unfold find, bucket_hash. simpl.
      destruct (N.of_nat (length (_buckets c))); simpl; [done|].
      destruct (_buckets c !! _); simpl; [|done].
      destruct (range (_bucket_list c) _); simpl; [|done].
      rewrite walk_ext with (arena := _arena c); [done|].
      intros j _. destruct (decide (i = j)) as [<-|];
        [|by rewrite list_lookup_insert_ne].
      rewrite list_lookup_insert_eq, Hnode; simpl; [by rewrite Hk, Hh|].
      by apply lookup_lt_is_Some_1; eexists.
    + simpl. apply list_lookup_insert_eq. by apply lookup_lt_is_Some_1; eexists.
  - destruct (update_miss_eq n c key val _ Hwf Hf)
      as (lru & rest & node & Hu & Hnode & ->).
    intros [= <-].
    pose proof (wf_size _ _ Hwf) as Hs.
    pose proof (hash_in_range c key Hs) as Hhash.
    assert (lru < length (_arena c)) as Hlru
      by (by apply lookup_lt_is_Some_1; eexists).
    eexists _, lru. split.
    + unfold find. rewrite bucket_hash_eq; simpl; rewrite !length_insert; [|done].
      rewrite list_lookup_insert_eq by (by rewrite length_insert). simpl.
      rewrite (wf_bucket_list _ _ Hwf), (nodes_from_slots n lru), slots_S;
        [|by rewrite <- (wf_arena _ _ Hwf)].
      simpl. rewrite list_lookup_insert_eq by done. simpl.
      by rewrite !decide_True.
    + simpl. by apply list_lookup_insert_eq.
Qed.

(** C4 — Round trip: in every state the program can reach, [update(k, v)]
    returns, and the [resolve(k)] that follows it at once finds the key and
    returns [v]. *)
Theorem update_then_resolve (capacity : N) (c : LruCache) (key : Key) (val : Val) :
  usable capacity → reachable capacity c →
  ∃ c1 c2,
    update c key val = Some c1 ∧ hit c1 key ∧ resolve c1 key = Some (val, c2).
Proof.
  intros Hu Hr. pose proof (reachable_wf capacity c Hu Hr) as Hwf.
  destruct (update_total _ c key val Hwf) as (c1 & Hup & Hwf1).
  destruct (update_find _ c c1 key val Hwf Hup) as (hash & i & Hf & Hi).
  destruct (resolve_hit_eq c1 key hash i Hf) as (node & Hnode & Hre).
  rewrite Hi in Hnode. injection Hnode as <-.
  eexists c1, _. split; [done|]. split; [|exact Hre].
  exists i. unfold lookup. by rewrite Hf.
Qed.

(** ** What [resolve] returns *)

(** C9 — Frame on a miss: when the lookup loop does not find [key],
    [resolve] returns and leaves every bucket-table entry and every arena
    node (key, value and cached hash) as they were; the usage list is
    untouched as well. *)
Theorem resolve_miss_frame (c : LruCache) (key : Key) :
  miss c key →
  ∃ val c',
    resolve c key = Some (val, c') ∧
    _buckets c' = _buckets c ∧ _arena c' = _arena c ∧
    _usage_list c' = _usage_list c.
Proof.
  unfold miss, lookup. intros Hm.
  destruct (find c key) as [[hash [i|]]|] eqn:Hf; try done.
  exists Val_default, c. by rewrite (resolve_miss_eq c key hash Hf).
Qed.

(** C7 (as amended) — [resolve] has the return type [Val] and no separate
    miss signal: in every reachable state it returns [Val()] and changes
    nothing when the key is not found, and returns the value stored in the
    node the loop stopped in, promoting that node, when the key is found. *)
Theorem resolve_returns_value_or_default (capacity : N) (c : LruCache) (key : Key) :
  usable capacity → reachable capacity c →
  (miss c key ∧ resolve c key = Some (Val_default, c))
  ∨ (∃ i node c',
       lookup c key = Some (Some i) ∧
       _arena c !! i = Some node ∧ _key node = key ∧
       resolve c key = Some (_val node, c') ∧
       _usage_list c' = promote (_usage_list c) i).
Proof.
  intros Hu Hr. pose proof (reachable_wf capacity c Hu Hr) as Hwf.
  destruct (find_total _ c key Hwf) as [[i|] Hf].
  - right. destruct (find_inv c key _ i Hf) as (node & Hnode & Hk & _).
    destruct (resolve_hit_eq c key _ i Hf) as (node' & Hnode' & Hre).
    rewrite Hnode in Hnode'. injection Hnode' as <-.
    eexists i, node, _. unfold lookup. rewrite Hf. by repeat split.
  - left. unfold miss, lookup. rewrite Hf. split; [done|].
    by eapply resolve_miss_eq.
Qed.

(** ** Construction *)

Section Construction.
Variable sizeof_Node : N.
Variable allocates : N → bool.

Abbreviation construct :=
  (construct Key_default Val_default LoadFactor sizeof_Node allocates).

Lemma vector_ctor_zero (sizeof_T : N) :
  vector_ctor allocates sizeof_T 0 = None.
Proof.
  unfold vector_ctor. case_decide as Hmax; [lia|]. by case_decide.
Qed.

Lemma vector_ctor_None (sizeof_T n : N) :
  vector_ctor allocates sizeof_T n = None ↔
  (n ≤ max_size sizeof_T)%N ∧ (n = 0%N ∨ allocates (n * sizeof_T) = true).
Proof.
  unfold vector_ctor. case_decide as Hmax.
  - split; [done|]. intros [? _]. lia.
  - case_decide as Hn.
    + split; [|done]. intros _. split; [lia|by left].
    + destruct (allocates (n * sizeof_T)); split; try done.
      * intros _. split; [lia|by right].
      * by intros [_ [?|?]].
Qed.

Lemma vector_ctor_thrown (sizeof_T n : N) (e : exception) :
  vector_ctor allocates sizeof_T n = Some e → e = length_error ∨ e = bad_alloc.
Proof.
  unfold vector_ctor. repeat case_decide; try done.
  - intros [= <-]. by left.
  - destruct (allocates (n * sizeof_T)); [done|]. intros [= <-]. by right.
Qed.

(** C8 (as amended) — Capacity 0 is accepted: constructing with it returns
    a cache with no node and no bucket entry, and no capacity makes the
    constructor throw [InvalidCapacity].  For every capacity the
    constructor returns exactly when the two vectors of line 58 can be
    constructed: [capacity * LoadFactor] (modulo 2^64) and [capacity] do
    not exceed the [max_size()] of the vector they size, and the allocator
    provides the bytes of each vector that is not empty.  Otherwise
    [std::length_error] or [std::bad_alloc] leaves it.  The cache returned
    has [capacity] default nodes and [capacity * LoadFactor] (modulo 2^64)
    bucket entries, all [end()]. *)
Theorem construct_outcome (capacity : N) :
  construct 0 = Returned (LruCache_ctor 0) ∧
  _arena (LruCache_ctor 0) = [] ∧ _buckets (LruCache_ctor 0) = [] ∧
  construct capacity ≠ Thrown InvalidCapacity ∧
  (construct capacity = Returned (LruCache_ctor capacity) ↔
   let size := ((capacity * LoadFactor) mod size_t_modulus)%N in
   (size ≤ max_size sizeof_iterator)%N ∧
   (size = 0%N ∨ allocates (size * sizeof_iterator) = true) ∧
   (capacity ≤ max_size sizeof_Node)%N ∧
   (capacity = 0%N ∨ allocates (capacity * sizeof_Node) = true)) ∧
  (∀ e, construct capacity = Thrown e → e = length_error ∨ e = bad_alloc) ∧
  (∀ c, construct capacity = Returned c →
     c = LruCache_ctor capacity ∧
     length (_arena c) = N.to_nat capacity ∧
     length (_buckets c)
     = N.to_nat ((capacity * LoadFactor) mod size_t_modulus) ∧
     (∀ node, node ∈ _arena c → node = mkNode Key_default Val_default 0) ∧
     (∀ it, it ∈ _buckets c → it = None)).
Proof.
  split_and!.
  - unfold construct. replace ((0 * LoadFactor) mod size_t_modulus)%N with 0%N
      by (by rewrite N.mul_0_l).
    by rewrite !vector_ctor_zero.
  - done.
  - unfold LruCache_ctor, _buckets. by rewrite N.mul_0_l.
  - unfold construct.
    destruct (vector_ctor _ sizeof_iterator _) as [e|] eqn:Hb.
    { destruct (vector_ctor_thrown _ _ _ Hb) as [-> | ->]; congruence. }
    destruct (vector_ctor _ sizeof_Node _) as [e|] eqn:Ha; [|done].
    destruct (vector_ctor_thrown _ _ _ Ha) as [-> | ->]; congruence.
  - cbv zeta. rewrite (assoc and), <- !vector_ctor_None. unfold construct.
    destruct (vector_ctor _ sizeof_iterator _) as [e|];
      [split; [done|by intros [? _]]|].
    destruct (vector_ctor _ sizeof_Node _) as [e|];
      [split; [done|by intros [_ ?]]|done].
  - intros e. unfold construct.
    destruct (vector_ctor _ sizeof_iterator _) as [e'|] eqn:Hb.
    { intros [= <-]. by eapply vector_ctor_thrown. }
    destruct (vector_ctor _ sizeof_Node _) as [e'|] eqn:Ha; [|done].
    intros [= <-]. by eapply vector_ctor_thrown.
  - intros c. unfold construct.
    destruct (vector_ctor _ sizeof_iterator _) as [e|]; [done|].
    destruct (vector_ctor _ sizeof_Node _) as [e|]; [done|].
    intros [= <-]. split; [done|]. simpl.
    rewrite !length_replicate. split_and!; try done.
    + by intros node [-> _]%elem_of_replicate.
    + by intros it [-> _]%elem_of_replicate.
Qed.

End Construction.

(** With capacity 0 the bucket table is empty, and the remainder that
    [update] and [resolve] start with has a zero divisor. *)
Lemma zero_capacity_undefined (key : Key) (val : Val) :
  update (LruCache_ctor 0) key val = None ∧ resolve (LruCache_ctor 0) key = None.
Proof.
  assert (find (LruCache_ctor 0) key = None) as Hf.
  { unfold find, bucket_hash. by simpl. }
  unfold update, resolve. by rewrite Hf.
Qed.

(** ** A node the constructor left empty becomes reachable *)

Lemma ctor_miss (capacity : N) (key : Key) :
  usable capacity → key ≠ Key_default →
  find (LruCache_ctor capacity) key
  = Some ((_key_hash key mod N.of_nat (length (_buckets (LruCache_ctor capacity))))%N,
          None).
Proof.
  intros Hu Hk. destruct (find_total _ _ key (ctor_wf capacity Hu)) as [[i|] Hf];
    [|done].
  destruct (find_inv _ key _ i Hf) as (node & Hnode & Hkey & _).
  simpl in Hnode. apply lookup_replicate in Hnode as [-> _]. by simpl in Hkey.
Qed.

(** C10 — A default-constructed key that was never inserted can be hit:
    when the hash of [Key()] falls into bucket 0 and the cache has at least
    two nodes, a single [update] of any other key on the fresh cache makes
    bucket 0 point at the node after the victim, which the constructor left
    with cached hash 0 and the default key; [resolve(Key())] then finds that
    never-written node, returns [Val()] from the hit branch and promotes the
    node to the back of the usage list. *)
Theorem phantom_default_key (capacity : N) (key : Key) (val : Val) :
  usable capacity → (2 ≤ capacity)%N →
  (_key_hash Key_default mod ((capacity * LoadFactor) mod size_t_modulus) = 0)%N →
  key ≠ Key_default →
  ∃ c1 c2,
    update (LruCache_ctor capacity) key val = Some c1 ∧
    lookup c1 Key_default = Some (Some (N.to_nat capacity - 2)) ∧
    _arena c1 !! (N.to_nat capacity - 2)
      = Some (mkNode Key_default Val_default 0) ∧
    resolve c1 Key_default = Some (Val_default, c2) ∧
    last (_usage_list c2) = Some (N.to_nat capacity - 2).
Proof.
  intros Hu Hcap Hdef Hk.
  pose proof (ctor_wf capacity Hu) as Hwf.
  pose proof (ctor_miss capacity key Hu Hk) as Hf.
  destruct (update_miss_eq _ _ key val _ Hwf Hf)
    as (lru & rest & node & Husage & Hnode & Hup).
  unfold usable in Hu.
  set (size := ((capacity * LoadFactor) mod size_t_modulus)%N) in *.
  set (c0 := LruCache_ctor capacity) in *.
  assert (_buckets c0 = replicate (N.to_nat size) None) as Hb by done.
  assert (_arena c0
          = replicate (N.to_nat capacity) (mkNode Key_default Val_default 0))
    as Ha by done.
  pose proof (wf_bucket_list _ _ Hwf) as Hl.
  assert (_usage_list c0 = reverse (seq 0 (N.to_nat capacity))) as Hus.
  { unfold c0. simpl. by rewrite push_front_all, app_nil_r. }
  assert (N.of_nat (length (_buckets c0)) = size) as Hlen.
  { rewrite Hb, length_replicate. lia. }
  rewrite Hlen in *. clear Hf.
  set (hash := (_key_hash key mod size)%N) in *.
  assert (hash < size)%N as Hhash by (apply N.mod_lt; lia).
  destruct (N.to_nat capacity) as [|[|m]] eqn:Hn; [lia|lia|].
  rewrite Hus, slots_S in Husage. injection Husage as <- <-.
  rewrite Ha in Hnode. apply lookup_replicate in Hnode as [-> _].
  cbn [_cached_hash] in Hup.
  assert (next_in_bucket c0 (S m) 0 = Some m) as Hnext.
  { unfold next_in_bucket, bucket_index. rewrite Ha.
    rewrite lookup_replicate_2 by lia. simpl. repeat case_decide; done. }
  rewrite Hnext, Hb, Ha, Hl in Hup. clearbody c0.
  match type of Hup with _ = Some ?c => remember c as c1 eqn:Hc1 end.
  assert (_arena c1 !! m = Some (mkNode Key_default Val_default 0)) as Hm.
  { rewrite Hc1. cbn [_arena]. rewrite list_lookup_insert_ne by lia.
    by rewrite lookup_replicate_2 by lia. }
  assert (_arena c1 !! S m = Some (mkNode key val hash)) as HSm.
  { rewrite Hc1. cbn [_arena]. apply list_lookup_insert_eq.
    rewrite length_replicate. lia. }
  assert (length (_buckets c1) = N.to_nat size) as Hlen1.
  { rewrite Hc1. cbn [_buckets]. by rewrite !length_insert, length_replicate. }
  assert (find c1 Key_default = Some (0%N, Some m)) as Hfd.
  { unfold find. rewrite bucket_hash_eq by lia.
    rewrite Hlen1, N2Nat.id, Hdef. cbn [mbind option_bind].
    replace (_bucket_list c1) with (reverse (seq 0 (S (S m)))) by (by rewrite Hc1).
    destruct (decide (N.to_nat hash = 0)) as [Hz|Hnz].
    - replace (_buckets c1 !! N.to_nat 0)
        with (Some (Some (S m)) : option iterator).
      2:{ rewrite Hc1. cbn [_buckets]. rewrite Hz. symmetry.
          apply list_lookup_insert_eq.
          rewrite length_insert, length_replicate. lia. }
      simpl. rewrite (nodes_from_slots (S (S m)) (S m)) by lia.
      rewrite !slots_S. simpl. rewrite HSm. simpl.
      assert (hash = 0%N) as -> by lia.
      rewrite decide_True by done. rewrite decide_False by done.
      rewrite Hm. simpl. by rewrite !decide_True.
    - replace (_buckets c1 !! N.to_nat 0)
        with (Some (Some m) : option iterator).
      2:{ rewrite Hc1. cbn [_buckets]. symmetry.
          rewrite list_lookup_insert_ne by (change (N.to_nat 0) with 0; lia).
          apply list_lookup_insert_eq. rewrite length_replicate. lia. }
      simpl. rewrite (nodes_from_slots (S (S m)) m) by lia.
      rewrite !slots_S. simpl. rewrite Hm. simpl.
      by rewrite !decide_True. }
  destruct (resolve_hit_eq c1 Key_default _ m Hfd) as (node' & Hnode' & Hre).
  rewrite Hm in Hnode'. injection Hnode' as <-.
  eexists c1, _. replace (S (S m) - 2) with m by lia.
  split; [done|]. split; [unfold lookup; by rewrite Hfd|]. split; [done|].
  split; [exact Hre|]. simpl. unfold promote, push_back. by rewrite last_snoc.
Qed.

(** ** The walk of a bucket *)

Lemma run_of_split (arena : list Node) (hash : N) (r : list nat) :
  (∀ i, i ∈ r → i < length arena) →
  ∃ l rest,
    r = l ++ rest ∧ run_of arena hash r = Some l ∧
    (∀ i, i ∈ l → _cached_hash <$> arena !! i = Some hash) ∧
    (∀ j, head rest = Some j →
          ∃ h, _cached_hash <$> arena !! j = Some h ∧ h ≠ hash).
Proof.
  induction r as [|i r IH]; intros Hr.
  - exists [], []. repeat split; try done. by intros i ?%elem_of_nil.
  - destruct (lookup_lt_is_Some_2 arena i) as [node Hnode]; [apply Hr; left|].
    simpl. rewrite Hnode. simpl. case_decide as Hh.
    + destruct IH as (l & rest & -> & -> & Hl & Hrest).
      { intros j Hj. apply Hr. by right. }
      exists (i :: l), rest. repeat split; try done.
      intros j [->|Hj]%elem_of_cons; [by rewrite Hnode; simpl; f_equal|by apply Hl].
    + exists [], (i :: r). repeat split; try done.
      * by intros j ?%elem_of_nil.
      * intros j [= <-]. exists (_cached_hash node). by rewrite Hnode.
Qed.

(** C1 (as amended) — In every reachable state the walk of a bucket [b]
    terminates; the nodes it visits are a front segment [l] of the nodes
    that follow the table entry in [_bucket_list], each with stored bucket
    index [b] and none of another bucket among them; it stops at [end()]
    or at the first node whose bucket index differs from [b]; and a table
    entry that is not [end()] points at a node of bucket [b], which the
    walk visits first.  (It is not claimed that every node with bucket
    index [b] is visited.) *)
Theorem bucket_walk_sound (capacity : N) (c : LruCache) (b : nat) :
  usable capacity → reachable capacity c → b < length (_buckets c) →
  ∃ it l rest,
    _buckets c !! b = Some it ∧
    range (_bucket_list c) it = Some (l ++ rest) ∧
    chain c b = Some l ∧
    head l = it ∧
    (∀ i, i ∈ l → bucket_index c i = Some (N.of_nat b)) ∧
    (∀ j, head rest = Some j →
          ∃ h, bucket_index c j = Some h ∧ h ≠ N.of_nat b).
Proof.
  intros Hu Hr Hb. pose proof (reachable_wf capacity c Hu Hr) as Hwf.
  destruct (lookup_lt_is_Some_2 _ _ Hb) as [it Hit].
  destruct (range_wf _ c b it Hwf Hit) as [Hrange Hlt].
  destruct (run_of_split (_arena c) (N.of_nat b)
              (match it with None => [] | Some i => reverse (seq 0 (S i)) end))
    as (l & rest & Hsplit & Hrun & Hl & Hrest).
  { intros i Hi. destruct it as [j|]; [|by apply elem_of_nil in Hi].
    apply elem_of_slots in Hi. rewrite (wf_arena _ _ Hwf).
    specialize (Hlt j eq_refl). lia. }
  exists it, l, rest. split; [done|]. split; [by rewrite Hrange, Hsplit|].
  split; [unfold chain; rewrite Hit; simpl; by rewrite Hrange|].
  split; [|done].
  destruct it as [i|].
  - pose proof (wf_head _ _ Hwf b i Hit) as Hi. unfold bucket_index in Hi.
    rewrite slots_S in Hsplit, Hrun. simpl in Hrun.
    destruct (_arena c !! i) as [node|]; simpl in *; [|done].
    injection Hi as Hi. rewrite decide_True in Hrun by done.
    destruct (run_of _ _ _); simpl in Hrun; [|done]. by injection Hrun as <-.
  - simpl in Hrun. by injection Hrun as <-.
Qed.

(** ** Runs of insertions of new keys *)

Lemma fresh_miss (n : nat) (c : LruCache) (key : Key) (keys : list Key) :
  wf n c → fresh c (key :: keys) →
  find c key
  = Some ((_key_hash key mod N.of_nat (length (_buckets c)))%N, None).
Proof.
  intros Hwf [_ Hfr]. destruct (find_total n c key Hwf) as [[i|] Hf]; [|done].
  destruct (find_inv c key _ i Hf) as (node & Hnode & Hk & _).
  apply Forall_cons_1 in Hfr as [Hfr _]. rewrite Forall_forall in Hfr.
  exfalso. apply (Hfr node); [by eapply list_elem_of_lookup_2|done].
Qed.

Lemma fresh_step (n : nat) (c : LruCache) (key : Key) (val : Val) (keys : list Key) :
  wf n c → fresh c (key :: keys) →
  ∃ lru rest hash c1,
    _usage_list c = lru :: rest ∧ (lru ∉ rest) ∧ lru < n ∧
    update c key val = Some c1 ∧ wf n c1 ∧
    _usage_list c1 = rest ++ [lru] ∧
    _arena c1 = <[lru := mkNode key val hash]> (_arena c) ∧
    fresh c1 keys.
Proof.
  intros Hwf Hfr. pose proof (fresh_miss n c key keys Hwf Hfr) as Hf.
  destruct (update_miss_eq n c key val _ Hwf Hf)
    as (lru & rest & node & Hu & Hnode & Hup).
  destruct (usage_front n c Hwf) as (lru' & rest' & Hu' & Hlt & Hnin).
  rewrite Hu in Hu'. injection Hu' as <- <-.
  eexists lru, rest, _, _.
  split; [done|]. split; [done|]. split; [done|]. split; [exact Hup|].
  split; [eapply update_wf; [exact Hwf|exact Hup]|].
  split; [done|]. split; [done|].
  split.
  - destruct Hfr as [Hnd _]. by apply NoDup_cons in Hnd as [_ ?].
  - destruct Hfr as [Hnd Hfr]. apply NoDup_cons in Hnd as [Hk _].
    apply Forall_cons_1 in Hfr as [_ Hfr]. simpl.
    rewrite Forall_forall in Hfr. apply Forall_forall. intros k Hkin.
    apply Forall_forall. intros nd Hnd.
    apply list_elem_of_lookup in Hnd as [j Hj].
    apply list_lookup_insert_Some in Hj as [(_ & <- & _)|[_ Hj]].
    + simpl. by intros ->.
    + specialize (Hfr k Hkin). rewrite Forall_forall in Hfr. apply Hfr.
      by eapply list_elem_of_lookup_2.
Qed.

Lemma updates_keep_back (n : nat) (kvs : list (Key * Val)) :
  ∀ (c : LruCache) (pre post : list nat) (i : nat),
    wf n c → _usage_list c = pre ++ i :: post → length kvs ≤ length pre →
    fresh c (kvs.*1) →
    ∃ c', updates c kvs = Some c' ∧ _arena c' !! i = _arena c !! i.
Proof.
  induction kvs as [|[k v] kvs IH]; intros c pre post i Hwf Hu Hlen Hfr.
  - by exists c.
  - destruct (fresh_step n c k v _ Hwf Hfr)
      as (lru & rest & hash & c1 & Hu1 & Hnin & _ & Hup & Hwf1 & Hus1 & Ha1 & Hfr1).
    destruct pre as [|p pre]; [simpl in Hlen; lia|].
    rewrite Hu1 in Hu. injection Hu as -> ->.
    destruct (IH c1 pre (post ++ [p]) i Hwf1) as (c' & Hc' & Hi); try done.
    + rewrite Hus1. by rewrite <- app_assoc.
    + simpl in Hlen. lia.
    + exists c'. simpl. rewrite Hup. simpl. split; [done|].
      rewrite Hi, Ha1. apply list_lookup_insert_ne.
      intros ->. apply Hnin. apply elem_of_app. right. left.
Qed.

Lemma updates_overwrite (n : nat) (keys : list Key) (kvs : list (Key * Val)) :
  ∀ (c : LruCache) (old new : list nat),
    wf n c → _usage_list c = old ++ new →
    (∀ s, s ∈ new → ∃ node, _arena c !! s = Some node ∧ _key node ∈ keys) →
    fresh c (kvs.*1) → kvs.*1 ⊆ keys →
    ∃ c' old' new',
      updates c kvs = Some c' ∧ wf n c' ∧
      _usage_list c' = old' ++ new' ∧
      length old' = length old - length kvs ∧
      (∀ s, s ∈ new' → ∃ node, _arena c' !! s = Some node ∧ _key node ∈ keys).
Proof.
  induction kvs as [|[k v] kvs IH]; intros c old new Hwf Hu Hnew Hfr Hsub.
  - exists c, old, new. split_and!; try done. simpl. lia.
  - destruct (fresh_step n c k v _ Hwf Hfr)
      as (lru & rest & hash & c1 & Hu1 & Hnin & Hlt & Hup & Hwf1 & Hus1 & Ha1 & Hfr1).
    assert (k ∈ keys) as Hk by (apply Hsub; left).
    assert (kvs.*1 ⊆ keys) as Hsub' by (intros x Hx; apply Hsub; by right).
    assert (∀ s, s ∈ rest ++ [lru] →
                 ∃ node, (s ∈ new ∨ s = lru) → _arena c1 !! s = Some node ∧ _key node ∈ keys)
      as Hkeep.
    { intros s _. destruct (decide (s = lru)) as [->|Hne].
      - eexists. intros _. rewrite Ha1. split.
        + apply list_lookup_insert_eq. by rewrite (wf_arena _ _ Hwf).
        + done.
      - destruct (decide (s ∈ new)) as [Hin|Hnot].
        + destruct (Hnew s Hin) as (node & Hnode & Hkey). exists node. intros _.
          rewrite Ha1, list_lookup_insert_ne by done. done.
        + exists (mkNode k v hash). by intros [?|?]. }
    destruct old as [|o old].
    + simpl in Hu. destruct (IH c1 [] (rest ++ [lru]) Hwf1)
        as (c' & old' & new' & Hc' & Hwf' & Hu' & Hlen' & Hnew'); try done.
      * intros s Hs. destruct (Hkeep s Hs) as (node & Hnode). exists node.
        apply Hnode. apply elem_of_app in Hs as [Hs|Hs%list_elem_of_singleton];
          [left|by right].
        rewrite <- Hu, Hu1. by right.
      * exists c', old', new'. simpl. rewrite Hup. simpl. split_and!; try done.
    + rewrite Hu1 in Hu. simpl in Hu. injection Hu as -> ->.
      destruct (IH c1 old (new ++ [o]) Hwf1)
        as (c' & old' & new' & Hc' & Hwf' & Hu' & Hlen' & Hnew'); try done.
      * rewrite Hus1. by rewrite <- app_assoc.
      * intros s Hs. destruct (Hkeep s) as (node & Hnode).
        { apply elem_of_app in Hs as [Hs|Hs].
          - apply elem_of_app. left. apply elem_of_app. by right.
          - apply elem_of_app. by right. }
        exists node. apply Hnode.
        apply elem_of_app in Hs as [Hs|Hs%list_elem_of_singleton];
          [by left|by right].
      * exists c', old', new'. simpl. rewrite Hup. simpl. split_and!; try done.
Qed.

(** C6 (as amended) — Promotion on read: after [resolve] has found [key] in
    node [i], inserting fewer than [capacity] new keys leaves node [i]
    holding [key] and its value (the read moved the node to the back of the
    usage list, so it is the last of the nodes to be reused), and inserting
    [capacity] or more new keys evicts [key]: [resolve(key)] then misses. *)
Theorem promoted_node_reused_last (capacity : N) (c c0 : LruCache)
    (key : Key) (val : Val) (i : nat) (kvs : list (Key * Val)) :
  usable capacity → reachable capacity c →
  lookup c key = Some (Some i) → resolve c key = Some (val, c0) →
  fresh c0 (kvs.*1) →
  ∃ c', updates c0 kvs = Some c' ∧
    (length kvs < N.to_nat capacity →
     ∃ node, _arena c' !! i = Some node ∧ _key node = key ∧ _val node = val) ∧
    (N.to_nat capacity ≤ length kvs → miss c' key).
Proof.
  intros Hu Hr Hl Hre Hfr. pose proof (reachable_wf capacity c Hu Hr) as Hwf.
  set (n := N.to_nat capacity) in *.
  unfold lookup in Hl. destruct (find c key) as [[hash found]|] eqn:Hf; [|done].
  simpl in Hl. injection Hl as ->.
  destruct (find_inv c key hash i Hf) as (node & Hnode & Hkey & _).
  destruct (resolve_hit_eq c key hash i Hf) as (node' & Hnode' & Hre').
  rewrite Hnode in Hnode'. injection Hnode' as <-.
  pose proof (resolve_wf n c c0 key val Hwf Hre) as Hwf0.
  rewrite Hre' in Hre. injection Hre as Hval Hc0.
  assert (_arena c0 = _arena c) as Ha0 by (by rewrite <- Hc0).
  assert (_usage_list c0 = erase i (_usage_list c) ++ [i]) as Hu0
    by (by rewrite <- Hc0).
  assert (i < n) as Hi.
  { rewrite <- (wf_arena _ _ Hwf). by apply lookup_lt_is_Some_1; eexists. }
  assert (length (erase i (_usage_list c)) = n - 1) as Hlen.
  { assert (i ∈ _usage_list c) as Hin
      by (rewrite (wf_usage _ _ Hwf); apply elem_of_seq; lia).
    assert (i :: erase i (_usage_list c) ≡ₚ seq 0 n) as Hp
      by (etrans; [by apply erase_perm|by apply wf_usage]).
    apply Permutation_length in Hp. rewrite length_seq in Hp. simpl in Hp. lia. }
  destruct (updates_overwrite n (kvs.*1) kvs c0 (_usage_list c0) [] Hwf0)
    as (c' & old' & new' & Hc' & Hwf' & Hu' & Hold' & Hnew'); try done.
  { by rewrite app_nil_r. }
  { by intros s ?%elem_of_nil. }
  exists c'. split; [done|]. split.
  - intros Hshort.
    destruct (updates_keep_back n kvs c0 (erase i (_usage_list c)) [] i Hwf0 Hu0)
      as (c'' & Hc'' & Hkeep); [lia|done|].
    rewrite Hc' in Hc''. injection Hc'' as <-.
    exists node. by rewrite Hkeep, Ha0.
  - intros Hlong.
    assert (old' = []) as ->.
    { apply length_zero_iff_nil. rewrite Hold'.
      pose proof (wf_usage _ _ Hwf0) as Hp. apply Permutation_length in Hp.
      rewrite length_seq in Hp. lia. }
    destruct (find_total n c' key Hwf') as [[j|] Hfj];
      [|unfold miss, lookup; by rewrite Hfj].
    exfalso. destruct (find_inv c' key _ j Hfj) as (nj & Hnj & Hkj & _).
    assert (j ∈ new') as Hj.
    { simpl in Hu'. rewrite <- Hu', (wf_usage _ _ Hwf'). apply elem_of_seq.
      rewrite <- (wf_arena _ _ Hwf'). split; [lia|].
      simpl. by apply lookup_lt_is_Some_1; eexists. }
    destruct (Hnew' j Hj) as (nj' & Hnj' & Hin). rewrite Hnj in Hnj'.
    injection Hnj' as <-. rewrite Hkj in Hin.
    destruct Hfr as [_ Hfr]. rewrite Forall_forall in Hfr.
    specialize (Hfr key Hin). rewrite Forall_forall in Hfr.
    apply (Hfr node); [|done]. rewrite Ha0. by eapply list_elem_of_lookup_2.
Qed.

(** ** The keys that can be resolved *)

Lemma found_hit (c : LruCache) (key : Key) : found c key = true ↔ hit c key.
Proof.
  unfold found, hit. destruct (lookup c key) as [[i|]|]; split; try done.
  - intros _. by exists i.
  - by intros [? ?].
  - by intros [? ?].
Qed.

Lemma hit_live (c : LruCache) (key : Key) : hit c key ↔ key ∈ live_keys c.
Proof.
  unfold live_keys. rewrite list_elem_of_filter, elem_of_remove_dups, found_hit.
  split; [|by intros [? _]]. intros Hhit. split; [done|].
  destruct Hhit as [i Hi]. unfold lookup in Hi.
  destruct (find c key) as [[hash fnd]|] eqn:Hf; [|done].
  simpl in Hi. injection Hi as ->.
  destruct (find_inv c key hash i Hf) as (node & Hnode & <- & _).
  apply list_elem_of_fmap_2. by eapply list_elem_of_lookup_2.
Qed.

Lemma remove_dups_shorter (keys : list Key) :
  length (remove_dups keys) ≤ length keys.
Proof.
  induction keys as [|key keys IH]; simpl; [done|]. case_decide; simpl; lia.
Qed.

(** No more keys can be resolved than the arena has nodes. *)
Lemma live_keys_bound (c : LruCache) : length (live_keys c) ≤ length (_arena c).
Proof.
  unfold live_keys. etrans; [apply length_filter|].
  etrans; [apply remove_dups_shorter|]. by rewrite length_fmap.
Qed.

(** ** Two keys in one bucket *)

Lemma walk_no_key (arena : list Node) (hash : N) (key : Key) (r : list nat) :
  (∀ i, i ∈ r → ∃ node, arena !! i = Some node ∧ _key node ≠ key) →
  walk arena hash key r = Some None.
Proof.
  induction r as [|i r IH]; intros Hr; simpl; [done|].
  destruct (Hr i) as (node & -> & Hk); [left|]. simpl.
  case_decide; [|done]. rewrite decide_False by done.
  apply IH. intros j Hj. apply Hr. by right.
Qed.

(** X17 — Whatever the hash: when two different keys of one bucket are inserted
    into a fresh cache of at least two nodes, the second insertion makes
    the bucket point at its own node, from which the walk cannot reach the
    node of the first key, which precedes it in [_bucket_list]; the first
    key is no longer found although both keys are stored. *)
Lemma colliding_key_lost (capacity : N) (a b : Key) (va vb : Val) :
  usable capacity → (2 ≤ capacity)%N →
  a ≠ b → a ≠ Key_default → b ≠ Key_default →
  (_key_hash a mod ((capacity * LoadFactor) mod size_t_modulus)
   = _key_hash b mod ((capacity * LoadFactor) mod size_t_modulus))%N →
  ∃ c2,
    updates (LruCache_ctor capacity) [(a, va); (b, vb)] = Some c2 ∧
    miss c2 a ∧ hit c2 b ∧
    (∃ i node, _arena c2 !! i = Some node ∧ _key node = a ∧ _val node = va).
Proof.
  intros Hu Hcap Hab Ha Hb Hcoll.
  pose proof (ctor_wf capacity Hu) as Hwf.
  pose proof (ctor_miss capacity a Hu Ha) as Hf.
  destruct (update_miss_eq _ _ a va _ Hwf Hf)
    as (lru & rest & node & Husage & Hnode & Hup).
  unfold usable in Hu.
  set (size := ((capacity * LoadFactor) mod size_t_modulus)%N) in *.
  set (c0 := LruCache_ctor capacity) in *.
  assert (_arena c0
          = replicate (N.to_nat capacity) (mkNode Key_default Val_default 0))
    as Ha0 by done.
  assert (_usage_list c0 = reverse (seq 0 (N.to_nat capacity))) as Hus.
  { unfold c0. simpl. by rewrite push_front_all, app_nil_r. }
  assert (N.of_nat (length (_buckets c0)) = size) as Hlen.
  { unfold c0. simpl. rewrite length_replicate. lia. }
  rewrite Hlen in *. clear Hf.
  destruct (N.to_nat capacity) as [|[|m]] eqn:Hn; [lia|lia|].
  rewrite Hus, slots_S in Husage. injection Husage as <- <-.
  rewrite Ha0 in Hup. clearbody c0.
  match type of Hup with _ = Some ?c => remember c as c1 eqn:Hc1 end.
  pose proof (update_wf _ _ _ a va Hwf Hup) as Hwf1.
  assert (_arena c1
          = <[S m := mkNode a va (_key_hash a mod size)%N]>
              (replicate (S (S m)) (mkNode Key_default Val_default 0)))
    as Ha1 by (by rewrite Hc1).
  assert (_usage_list c1 = reverse (seq 0 (S m)) ++ [S m]) as Hus1
    by (by rewrite Hc1).
  assert (N.of_nat (length (_buckets c1)) = size) as Hlen1.
  { rewrite Hc1. simpl. rewrite !length_insert. done. }
  assert (find c1 b = Some ((_key_hash b mod size)%N, None)) as Hfb.
  { destruct (find_total _ c1 b Hwf1) as [[i|] Hfi];
      [|by rewrite Hlen1 in Hfi].
    destruct (find_inv c1 b _ i Hfi) as (nd & Hnd & Hk & _).
    rewrite Ha1 in Hnd.
    apply list_lookup_insert_Some in Hnd as [(_ & <- & _)|[_ Hnd]].
    - done.
    - by apply lookup_replicate in Hnd as [-> _]. }
  destruct (update_miss_eq _ c1 b vb _ Hwf1 Hfb)
    as (lru2 & rest2 & node2 & Husage2 & Hnode2 & Hup2).
  rewrite Hus1, slots_S in Husage2. simpl in Husage2. injection Husage2 as <- <-.
  match type of Hup2 with _ = Some ?c => remember c as c2 eqn:Hc2 end.
  pose proof (update_wf _ _ _ b vb Hwf1 Hup2) as Hwf2.
  exists c2. split; [simpl; rewrite Hup; simpl; by rewrite Hup2|].
  assert (_arena c2 = <[m := mkNode b vb (_key_hash b mod size)%N]> (_arena c1))
    as Ha2 by (by rewrite Hc2).
  split; [|split].
  - unfold miss, lookup, find. rewrite bucket_hash_eq by (apply (wf_size _ _ Hwf2)).
    assert (N.of_nat (length (_buckets c2)) = size) as ->.
    { rewrite Hc2. simpl. by rewrite !length_insert. }
    rewrite Hcoll. simpl.
    replace (_buckets c2 !! N.to_nat (_key_hash b mod size))
      with (Some (Some m) : option iterator).
    2:{ rewrite Hc2. simpl. symmetry. apply list_lookup_insert_eq.
        rewrite length_insert.
        assert (_key_hash b mod size < size)%N by (apply N.mod_lt; lia). lia. }
    simpl. rewrite (wf_bucket_list _ _ Hwf2), (nodes_from_slots (S (S m)) m) by lia.
    simpl. rewrite walk_no_key; [done|].
    intros i Hi%elem_of_slots. rewrite Ha2, Ha1.
    destruct (decide (i = m)) as [->|Hne].
    + eexists. split; [apply list_lookup_insert_eq|done].
      rewrite length_insert, length_replicate. lia.
    + exists (mkNode Key_default Val_default 0).
      rewrite !list_lookup_insert_ne by lia.
      split; [apply lookup_replicate_2; lia|]. simpl. by intros <-.
  - destruct (update_find _ c1 c2 b vb Hwf1 Hup2) as (hash & i & Hfi & _).
    exists i. unfold lookup. by rewrite Hfi.
  - exists (S m), (mkNode a va (_key_hash a mod size)%N).
    split; [|done]. rewrite Ha2, Ha1, list_lookup_insert_ne by lia.
    apply list_lookup_insert_eq. rewrite length_replicate. lia.
Qed.

End Properties.

(** ** The hash matters only through the bucket it selects *)

Section HashIndependence.
Context {Key Val : Type} `{EqDecision Key}.
Variable Val_default : Val.
Variables h h' : Key → N.

Lemma find_hash_ext (c : LruCache) (key : Key) :
  (h key mod N.of_nat (length (_buckets c)))%N
  = (h' key mod N.of_nat (length (_buckets c)))%N →
  find h c key = find (Val := Val) h' c key.
Proof.
  intros E. unfold find, bucket_hash.
  destruct (N.of_nat (length (_buckets c))) as [|size]; [done|].
  by rewrite E.
Qed.

Lemma update_buckets_length (c c' : LruCache) (key : Key) (val : Val) :
  update h c key val = Some c' → length (_buckets c') = length (_buckets c).
Proof.
  unfold update. destruct (find h c key) as [[hash [i|]]|]; simpl; [| |done].
  - destruct (_arena c !! i); simpl; [|done]. by intros [= <-].
  - destruct (front (_usage_list c)) as [lru|]; simpl; [|done].
    destruct (_arena c !! lru); simpl; [|done].
    destruct (s_next (_bucket_list c) lru) as [[j|]|]; simpl; [| |done].
    + destruct (_ !! j); simpl; [|done].
      destruct (_buckets c !! _); simpl; [|done].
      intros [= <-]. simpl. by rewrite !length_insert.
    + destruct (_buckets c !! _); simpl; [|done].
      intros [= <-]. simpl. by rewrite !length_insert.
Qed.

Lemma resolve_buckets_length (c c' : LruCache) (key : Key) (val : Val) :
  resolve Val_default h c key = Some (val, c') →
  length (_buckets c') = length (_buckets c).
Proof.
  unfold resolve. destruct (find h c key) as [[hash [i|]]|]; simpl; [| |done].
  - destruct (_arena c !! i); simpl; [|done]. by intros [= _ <-].
  - by intros [= _ <-].
Qed.

Lemma run_hash_ext (calls : list (call Key Val)) :
  ∀ c : LruCache,
    (∀ key, key ∈ call_key <$> calls →
            (h key mod N.of_nat (length (_buckets c)))%N
            = (h' key mod N.of_nat (length (_buckets c)))%N) →
    run Val_default h c calls = run Val_default h' c calls.
Proof.
  induction calls as [|[key val|key] calls IH]; intros c Hk; [done| |].
  - assert (find h c key = find h' c key) as Hf
      by (apply find_hash_ext, Hk; left).
    assert (update h c key val = update h' c key val) as Hup
      by (unfold update; by rewrite Hf).
    simpl. rewrite <- Hup. destruct (update h c key val) as [c'|] eqn:Hc'; [|done].
    simpl. apply IH. intros k Hin.
    rewrite (update_buckets_length c c' key val Hc'). apply Hk. by right.
  - assert (find h c key = find h' c key) as Hf
      by (apply find_hash_ext, Hk; left).
    assert (resolve Val_default h c key = resolve Val_default h' c key) as Hre
      by (unfold resolve; by rewrite Hf).
    simpl. unfold lookup. rewrite <- Hf, <- Hre.
    destruct (find h c key) as [[? fnd]|]; simpl; [|done].
    destruct (resolve Val_default h c key) as [[val c']|] eqn:Hc'; [|done].
    simpl. rewrite IH; [done|]. intros k Hin.
    rewrite (resolve_buckets_length c c' key val Hc'). apply Hk. by right.
Qed.

End HashIndependence.

(** ** The basic test of [main] *)

Lemma bucket_cases (x : N) : (x < 8)%N → x ∈ buckets8.
Proof.
  intros Hx. unfold buckets8.
  destruct x as [|[[[]|[]|]|[[]|[]|]|]]; try lia; set_solver.
Qed.

Lemma forallb_buckets8 (f : N → bool) (x : N) :
  forallb f buckets8 = true → (x < 8)%N → f x = true.
Proof.
  intros Hf Hx. rewrite forallb_forall in Hf. apply Hf.
  apply list_elem_of_In. by apply bucket_cases.
Qed.

(** The basic test evaluated for every placement of its four keys in the
    eight buckets: the answers are the expected ones exactly when "abc" is
    outside bucket 0 and shares its bucket with neither "def" nor "qwe". *)
Lemma basic_test_checked :
  forallb (λ a, forallb (λ b, forallb (λ c, forallb (λ d,
    Bool.eqb (bool_decide (a ≠ 0%N ∧ b ≠ a ∧ c ≠ a))
             (bool_decide (run "" (bucket_table a b c d)
                               (LruCache_ctor "" "" 4 2) basic_test
                           = Some basic_test_answers)))
    buckets8) buckets8) buckets8) buckets8 = true.
Proof. vm_compute. reflexivity. Qed.

Lemma basic_test_table (a b c d : N) :
  (a < 8)%N → (b < 8)%N → (c < 8)%N → (d < 8)%N →
  (a ≠ 0%N ∧ b ≠ a ∧ c ≠ a)
  ↔ run "" (bucket_table a b c d) (LruCache_ctor "" "" 4 2) basic_test
    = Some basic_test_answers.
Proof.
  intros Ha8 Hb8 Hc8 Hd8.
  pose proof basic_test_checked as Hchk.
  apply (forallb_buckets8 _ a) in Hchk; [|done].
  apply (forallb_buckets8 _ b) in Hchk; [|done].
  apply (forallb_buckets8 _ c) in Hchk; [|done].
  apply (forallb_buckets8 _ d) in Hchk; [|done].
  cbv beta in Hchk. apply Bool.eqb_prop in Hchk.
  rewrite <- (bool_decide_eq_true (a ≠ 0%N ∧ b ≠ a ∧ c ≠ a)), Hchk.
  apply bool_decide_eq_true.
Qed.

Lemma basic_test_buckets (hash : string → N) :
  run "" hash (LruCache_ctor "" "" 4 2) basic_test
  = run "" (bucket_table (hash "abc" mod 8) (hash "def" mod 8)
                         (hash "qwe" mod 8) (hash "iop" mod 8))
        (LruCache_ctor "" "" 4 2) basic_test.
Proof.
  assert (∀ x : N, x mod 8 < 8)%N as Hlt by (intros; apply N.mod_lt; lia).
  apply run_hash_ext. intros key Hkey.
  replace (length (_buckets (LruCache_ctor (Key := string) (Val := string) "" "" 4 2)))
    with 8 by (by vm_compute).
  assert (∀ x : N, (x mod 8) mod 8 = x mod 8)%N as Hsmall
    by (intros; apply N.mod_small, Hlt).
  unfold bucket_table.
  repeat case_decide; subst; rewrite ?Hsmall; try done.
  exfalso. simpl in Hkey.
  repeat (apply elem_of_cons in Hkey as [->|Hkey]; [done|]).
  by apply elem_of_nil in Hkey.
Qed.

(** C3 — The basic test of [main] on a cache of capacity 2 (eight
    buckets), for every hash that puts "abc" outside bucket 0 and in a
    bucket that neither "def" nor "qwe" shares: the ten [resolve] calls
    answer, in order, "ABC", "DEF", "DEF", "ABC!", "ABC!", "QWE", not found,
    "QWE", "IOP", not found; a key that is not found yields the default
    value [""]. *)
Theorem basic_test_results (hash : string → N) :
  (hash "abc" mod 8 ≠ 0)%N →
  (hash "def" mod 8 ≠ hash "abc" mod 8)%N →
  (hash "qwe" mod 8 ≠ hash "abc" mod 8)%N →
  run "" hash (LruCache_ctor "" "" 4 2) basic_test = Some basic_test_answers.
Proof.
  intros Ha Hb Hc. rewrite basic_test_buckets.
  apply basic_test_table; try (apply N.mod_lt; lia). done.
Qed.

(** The condition on the hash is the weakest one: the basic test gives the
    expected answers for no other placement of the keys. *)
Lemma basic_test_results_only_if (hash : string → N) :
  run "" hash (LruCache_ctor "" "" 4 2) basic_test = Some basic_test_answers →
  (hash "abc" mod 8 ≠ 0)%N ∧
  (hash "def" mod 8 ≠ hash "abc" mod 8)%N ∧
  (hash "qwe" mod 8 ≠ hash "abc" mod 8)%N.
Proof.
  rewrite basic_test_buckets. intros Hrun.
  by apply basic_test_table in Hrun; try (apply N.mod_lt; lia).
Qed.

(** * Further properties of the class *)

Section Behaviour.
Context {Key Val : Type} `{EqDecision Key}.
Variable Key_default : Key.
Variable Val_default : Val.
Variable LoadFactor : N.
Variable _key_hash : Key → N.

Abbreviation Node := (Node (Key := Key) (Val := Val)).
Abbreviation LruCache := (LruCache (Key := Key) (Val := Val)).
Abbreviation LruCache_ctor := (LruCache_ctor Key_default Val_default LoadFactor).
Abbreviation empty_node := (empty_node Key_default Val_default).
Abbreviation find := (find _key_hash).
Abbreviation lookup := (lookup _key_hash).
Abbreviation hit := (hit _key_hash).
Abbreviation miss := (miss _key_hash).
Abbreviation update := (update _key_hash).
Abbreviation resolve := (resolve Val_default _key_hash).
Abbreviation run := (run Val_default _key_hash).
Abbreviation exec := (exec Val_default _key_hash).
Abbreviation reachable := (reachable Key_default Val_default LoadFactor _key_hash).
Abbreviation usable := (usable LoadFactor).
Abbreviation collision_free := (collision_free _key_hash).
Abbreviation lru_resolve := (lru_resolve Val_default).
Abbreviation lru_run := (lru_run Val_default).

(** ** What a call can and cannot change *)

Lemma update_hit_shape (c : LruCache) (key : Key) (val : Val) (i : nat) :
  lookup c key = Some (Some i) →
  ∃ hash,
    find c key = Some (hash, Some i) ∧
    update c key val
    = Some {| _buckets := _buckets c;
              _arena := <[i := mkNode key val hash]> (_arena c);
              _bucket_list := _bucket_list c;
              _usage_list := promote (_usage_list c) i |}.
Proof.
  unfold lookup. intros Hl.
  destruct (find c key) as [[hash fnd]|] eqn:Hf; [|done].
  simpl in Hl. injection Hl as ->. exists hash. split; [done|].
  by apply update_hit_eq.
Qed.

Lemma find_same_table (c c' : LruCache) (key : Key) :
  _buckets c' = _buckets c → _bucket_list c' = _bucket_list c →
  (∀ j, (λ node, (_key node, _cached_hash node)) <$> _arena c' !! j
        = (λ node, (_key node, _cached_hash node)) <$> _arena c !! j) →
  find c' key = find c key.
Proof.
  intros Hb Hl Ha. unfold find, bucket_hash. rewrite Hb, Hl.
  destruct (N.of_nat (length (_buckets c))); simpl; [done|].
  destruct (_buckets c !! _); simpl; [|done].
  destruct (range (_bucket_list c) _); simpl; [|done].
  by rewrite (walk_ext (_arena c) (_arena c')).
Qed.

Lemma update_shape (c c' : LruCache) (key : Key) (val : Val) :
  update c key val = Some c' →
  length (_arena c') = length (_arena c) ∧
  length (_buckets c') = length (_buckets c) ∧
  _bucket_list c' = _bucket_list c.
Proof.
  intros Hup. split; [|split; [by eapply update_buckets_length|]];
    revert Hup; unfold update;
    (destruct (find c key) as [[hash [i|]]|]; simpl; [| |done]).
  - destruct (_arena c !! i); simpl; [|done]. intros [= <-]. simpl.
    by rewrite length_insert.
  - destruct (front (_usage_list c)) as [lru|]; simpl; [|done].
    destruct (_arena c !! lru); simpl; [|done].
    destruct (s_next (_bucket_list c) lru) as [[j|]|]; simpl; [| |done].
    + destruct (_ !! j); simpl; [|done].
      destruct (_buckets c !! _); simpl; [|done].
      intros [= <-]. simpl. by rewrite !length_insert.
    + destruct (_buckets c !! _); simpl; [|done].
      intros [= <-]. simpl. by rewrite !length_insert.
  - destruct (_arena c !! i); simpl; [|done]. by intros [= <-].
  - destruct (front (_usage_list c)) as [lru|]; simpl; [|done].
    destruct (_arena c !! lru); simpl; [|done].
    destruct (s_next (_bucket_list c) lru) as [[j|]|]; simpl; [| |done].
    + destruct (_ !! j); simpl; [|done].
      destruct (_buckets c !! _); simpl; [|done]. by intros [= <-].
    + destruct (_buckets c !! _); simpl; [|done]. by intros [= <-].
Qed.

Lemma resolve_shape (c c' : LruCache) (key : Key) (val : Val) :
  resolve c key = Some (val, c') →
  _arena c' = _arena c ∧ _buckets c' = _buckets c ∧
  _bucket_list c' = _bucket_list c.
Proof.
  unfold resolve. destruct (find c key) as [[hash [i|]]|]; simpl; [| |done].
  - destruct (_arena c !! i); simpl; [|done]. by intros [= _ <-].
  - by intros [= _ <-].
Qed.

Lemma reachable_shape (capacity : N) (c : LruCache) :
  reachable capacity c →
  length (_arena c) = N.to_nat capacity ∧
  length (_buckets c) = N.to_nat ((capacity * LoadFactor) mod size_t_modulus) ∧
  _bucket_list c = reverse (seq 0 (N.to_nat capacity)).
Proof.
  induction 1 as [|c key val c' _ IH Hup|c key val c' _ IH Hre].
  - simpl. rewrite !length_replicate, push_front_all. by rewrite app_nil_r.
  - destruct (update_shape c c' key val Hup) as (-> & -> & ->). done.
  - destruct (resolve_shape c c' key val Hre) as (-> & -> & ->). done.
Qed.

(** X1 — Nothing is allocated or relinked after construction: in every
    state the program reaches from a cache constructed with [capacity], the
    arena has [capacity] nodes, the bucket table has
    [capacity * LoadFactor] (modulo 2^64) entries and [_bucket_list] links
    the nodes as the constructor left them. *)
Theorem storage_is_fixed (capacity : N) (c : LruCache) :
  reachable capacity c →
  length (_arena c) = N.to_nat capacity ∧
  length (_buckets c) = N.to_nat ((capacity * LoadFactor) mod size_t_modulus) ∧
  _bucket_list c = reverse (seq 0 (N.to_nat capacity)).
Proof. apply reachable_shape. Qed.

(** X2 — No call on a constructed cache runs into undefined behaviour when
    the bucket table is not empty: every series of calls has a result and
    leaves a cache. *)
Theorem calls_are_defined (capacity : N) (calls : list (call Key Val)) :
  usable capacity →
  is_Some (run (LruCache_ctor capacity) calls) ∧
  is_Some (exec (LruCache_ctor capacity) calls).
Proof.
  intros Hu. pose proof (ctor_wf Key_default Val_default LoadFactor capacity Hu) as Hwf.
  revert Hwf. generalize (LruCache_ctor capacity). generalize (N.to_nat capacity).
  intros n. induction calls as [|[key val|key] calls IH]; intros c Hwf; simpl.
  - split; by eexists.
  - destruct (update_total _key_hash n c key val Hwf) as (c' & -> & Hwf').
    simpl. by apply IH.
  - destruct (resolve_total Val_default _key_hash n c key Hwf)
      as (val & c' & Hre & Hwf').
    destruct (lookup_total _key_hash n c key Hwf) as [[i Hl]|Hl];
      [|unfold miss in Hl]; rewrite Hl, Hre; simpl;
      destruct (IH c' Hwf') as [[answers ->] ?]; split; by eauto.
Qed.

(** X3 — The usage list is a total order of the nodes: in every reachable
    state it lists every arena position exactly once. *)
Theorem usage_lists_every_node_once (capacity : N) (c : LruCache) :
  usable capacity → reachable capacity c →
  NoDup (_usage_list c) ∧
  length (_usage_list c) = N.to_nat capacity ∧
  ∀ i, i ∈ _usage_list c ↔ i < N.to_nat capacity.
Proof.
  intros Hu Hr.
  pose proof (wf_usage _ _ (reachable_wf _ _ _ _ capacity c Hu Hr)) as Hp.
  split; [rewrite Hp; apply NoDup_seq|].
  split; [by rewrite Hp, length_seq|].
  intros i. rewrite Hp, elem_of_seq. lia.
Qed.

(** X4 — An empty bucket table makes every call undefined: when
    [capacity * LoadFactor] is 0 modulo 2^64 (capacity 0, load factor 0, or
    a product that wraps around), the first [update] or [resolve] on the
    constructed cache computes a remainder by zero. *)
Theorem empty_table_is_undefined (capacity : N) (key : Key) (val : Val) :
  ((capacity * LoadFactor) mod size_t_modulus = 0)%N →
  update (LruCache_ctor capacity) key val = None ∧
  resolve (LruCache_ctor capacity) key = None.
Proof.
  intros Hz.
  assert (find (LruCache_ctor capacity) key = None) as Hf.
  { unfold find, bucket_hash. simpl. by rewrite length_replicate, Hz. }
  unfold update, resolve. by rewrite Hf.
Qed.

Lemma update_hit_frame (c : LruCache) (key : Key) (val : Val)
    (i : nat) :
  lookup c key = Some (Some i) →
  ∃ c' node,
    update c key val = Some c' ∧
    _buckets c' = _buckets c ∧
    _arena c !! i = Some node ∧
    _arena c' = <[i := mkNode (_key node) val (_cached_hash node)]> (_arena c) ∧
    ∀ key', lookup c' key' = lookup c key'.
Proof.
  intros Hl. destruct (update_hit_shape c key val i Hl) as (hash & Hf & Hup).
  destruct (find_inv _key_hash c key hash i Hf) as (node & Hnode & Hk & Hh).
  eexists _, node. split; [exact Hup|]. simpl. rewrite Hk, Hh.
  split; [done|]. split; [done|]. split; [done|].
  intros key'. unfold lookup. f_equal. apply find_same_table; try done.
  intros j. simpl. destruct (decide (i = j)) as [<-|];
    [|by rewrite list_lookup_insert_ne].
  rewrite list_lookup_insert_eq, Hnode; simpl; [by rewrite Hk, Hh|].
  by apply lookup_lt_is_Some_1; eexists.
Qed.

(** X5 — Updating a key that is found evicts nothing: the bucket table is
    unchanged, only the value of the node found changes, and every key is
    looked up with the same outcome as before. *)
Theorem update_of_cached_key_keeps_others (c : LruCache) (key : Key) (val : Val)
    (i : nat) :
  lookup c key = Some (Some i) →
  ∃ c' node,
    update c key val = Some c' ∧
    _buckets c' = _buckets c ∧
    _arena c !! i = Some node ∧
    _arena c' = <[i := mkNode (_key node) val (_cached_hash node)]> (_arena c) ∧
    ∀ key', lookup c' key' = lookup c key'.
Proof. apply update_hit_frame. Qed.

Lemma erase_last (l : list nat) (i : nat) : i ∉ l → erase i (l ++ [i]) = l.
Proof.
  induction l as [|j l IH]; simpl; intros Hi.
  - by rewrite decide_True.
  - apply not_elem_of_cons in Hi as [Hne Hi].
    rewrite decide_False by done. by rewrite IH.
Qed.

Lemma erase_not_in (l : list nat) (i : nat) : NoDup l → i ∉ erase i l.
Proof.
  induction 1 as [|j l Hj Hnd IH]; simpl; [apply not_elem_of_nil|].
  case_decide as Hd; [by subst|].
  apply not_elem_of_cons. split; [by intros ->|done].
Qed.

Lemma touch_moves_to_back (capacity : N) (c : LruCache) (key : Key) :
  usable capacity → reachable capacity c →
  (∀ val c', update c key val = Some c' →
     ∃ i, lookup c' key = Some (Some i) ∧ last (_usage_list c') = Some i) ∧
  (∀ i val c', lookup c key = Some (Some i) → resolve c key = Some (val, c') →
     lookup c' key = Some (Some i) ∧ last (_usage_list c') = Some i).
Proof.
  intros Hu Hr. pose proof (reachable_wf _ _ _ _ capacity c Hu Hr) as Hwf.
  split.
  - intros val c' Hup.
    destruct (update_find _key_hash _ c c' key val Hwf Hup) as (hash & i & Hf & _).
    exists i. split; [unfold lookup; by rewrite Hf|].
    destruct (find_total _key_hash _ c key Hwf) as [[j|] Hfj].
    + rewrite (update_hit_eq _key_hash c key val _ j Hfj) in Hup.
      injection Hup as <-. simpl in *. unfold promote, push_back.
      rewrite last_snoc. f_equal.
      rewrite (find_same_table c) in Hf; try done.
      * rewrite Hfj in Hf. congruence.
      * intros l. simpl.
        destruct (find_inv _key_hash c key _ j Hfj) as (node & Hnode & Hk & Hh).
        destruct (decide (j = l)) as [<-|]; [|by rewrite list_lookup_insert_ne].
        rewrite list_lookup_insert_eq, Hnode; simpl; [by rewrite Hk, Hh|].
        by apply lookup_lt_is_Some_1; eexists.
    + destruct (update_miss_eq _key_hash _ c key val _ Hwf Hfj)
        as (lru & rest & node & Hus & Hnode & Hup').
      rewrite Hup' in Hup. injection Hup as <-. simpl. rewrite last_snoc.
      f_equal. revert Hf. unfold find. rewrite bucket_hash_eq; simpl;
        rewrite !length_insert; [|by apply (wf_size _ _ Hwf)].
      rewrite list_lookup_insert_eq
        by (rewrite length_insert; apply hash_in_range, (wf_size _ _ Hwf)).
      simpl. rewrite (wf_bucket_list _ _ Hwf), (nodes_from_slots _ lru), slots_S.
      * simpl. rewrite list_lookup_insert_eq
          by (by apply lookup_lt_is_Some_1; eexists).
        simpl. rewrite !decide_True by done. simpl. intros ?. congruence.
      * rewrite <- (wf_arena _ _ Hwf). by apply lookup_lt_is_Some_1; eexists.
  - intros i val c' Hl Hre. unfold lookup in Hl.
    destruct (find c key) as [[hash fnd]|] eqn:Hf; [|done].
    simpl in Hl. injection Hl as ->.
    destruct (resolve_hit_eq Val_default _key_hash c key hash i Hf)
      as (node & _ & Hre').
    rewrite Hre' in Hre. injection Hre as _ <-. split.
    + unfold lookup. rewrite (find_same_table c); [by rewrite Hf|done..].
    + simpl. unfold promote, push_back. by rewrite last_snoc.
Qed.

(** X6 — After an [update] or a [resolve] that finds its key, the node of
    the key is the most recently used one: it is the last of the usage
    list, and the key is found in it. *)
Theorem touched_node_is_most_recent (capacity : N) (c : LruCache) (key : Key) :
  usable capacity → reachable capacity c →
  (∀ val c', update c key val = Some c' →
     ∃ i, lookup c' key = Some (Some i) ∧ last (_usage_list c') = Some i) ∧
  (∀ i val c', lookup c key = Some (Some i) → resolve c key = Some (val, c') →
     lookup c' key = Some (Some i) ∧ last (_usage_list c') = Some i).
Proof. apply touch_moves_to_back. Qed.

(** X7 — Overwriting a key twice in a row: the second [update] finds the
    key, so it reuses no node; it leaves the bucket table, the keys of the
    arena and even the usage list as the first one left them, and the
    [resolve] that follows returns the second value. *)
Theorem overwrite_twice (capacity : N) (c : LruCache) (key : Key) (v1 v2 : Val) :
  usable capacity → reachable capacity c →
  ∃ c1 c2 c3,
    update c key v1 = Some c1 ∧ update c1 key v2 = Some c2 ∧
    resolve c2 key = Some (v2, c3) ∧
    _buckets c2 = _buckets c1 ∧
    _key <$> _arena c2 = _key <$> _arena c1 ∧
    _usage_list c2 = _usage_list c1.
Proof.
  intros Hu Hr. pose proof (reachable_wf _ _ _ _ capacity c Hu Hr) as Hwf.
  destruct (update_total _key_hash _ c key v1 Hwf) as (c1 & Hup1 & Hwf1).
  assert (reachable capacity c1) as Hr1 by (by eapply reach_update).
  destruct (proj1 (touch_moves_to_back capacity c key Hu Hr) v1 c1 Hup1)
    as (i & Hl1 & Hlast).
  destruct (update_hit_frame c1 key v2 i Hl1)
    as (c2 & node & Hup2 & Hb & Hnode & Ha & _).
  pose proof (update_wf _key_hash _ c1 c2 key v2 Hwf1 Hup2) as Hwf2.
  destruct (update_find _key_hash _ c1 c2 key v2 Hwf1 Hup2)
    as (hash & j & Hf2 & Hj).
  destruct (resolve_hit_eq Val_default _key_hash c2 key hash j Hf2)
    as (node' & Hnode' & Hre).
  rewrite Hj in Hnode'. injection Hnode' as <-.
  eexists c1, c2, _. split; [done|]. split; [done|]. split; [exact Hre|].
  split; [done|]. split.
  - rewrite Ha, list_fmap_insert. simpl. apply list_insert_id.
    by rewrite list_lookup_fmap, Hnode.
  - destruct (update_hit_shape c1 key v2 i Hl1) as (h & _ & Hup2').
    rewrite Hup2' in Hup2. injection Hup2 as <-. simpl.
    assert (NoDup (_usage_list c1)) as Hnd
      by (rewrite (wf_usage _ _ Hwf1); apply NoDup_seq).
    destruct (_usage_list c1) as [|x l] eqn:Hus using rev_ind; [done|].
    rewrite last_snoc in Hlast. injection Hlast as ->.
    unfold promote, push_back. rewrite erase_last; [done|].
    apply NoDup_app in Hnd as (_ & Hdisj & _). intros Hin.
    apply (Hdisj i Hin). left.
Qed.

(** X8 — Reading does not change what is stored: a [resolve] leaves the
    arena and the bucket table as they are, so every later [resolve], of
    any key, returns the value it would have returned before. *)
Theorem resolve_keeps_answers (c c' : LruCache) (key : Key) (val : Val) :
  resolve c key = Some (val, c') →
  _arena c' = _arena c ∧ _buckets c' = _buckets c ∧
  ∀ key', fst <$> resolve c' key' = fst <$> resolve c key'.
Proof.
  intros Hre. destruct (resolve_shape c c' key val Hre) as (Ha & Hb & Hl).
  split; [done|]. split; [done|]. intros key'.
  assert (find c' key' = find c key') as Hf
    by (apply find_same_table; try done; intros j; by rewrite Ha).
  unfold resolve. rewrite Hf, Ha.
  destruct (find c key') as [[hash [i|]]|]; simpl; [|done|done].
  by destruct (_arena c !! i).
Qed.

(** X9 — Which node an insertion reuses: when the key is not found,
    [update] overwrites the node at the front of the usage list, moves it to
    the back and leaves every other node of the arena untouched. *)
Theorem miss_reuses_front_node (capacity : N) (c : LruCache) (key : Key) (val : Val) :
  usable capacity → reachable capacity c → miss c key →
  ∃ lru rest hash c',
    _usage_list c = lru :: rest ∧
    update c key val = Some c' ∧
    _usage_list c' = rest ++ [lru] ∧
    _arena c' !! lru = Some (mkNode key val hash) ∧
    ∀ j, j ≠ lru → _arena c' !! j = _arena c !! j.
Proof.
  intros Hu Hr Hm. pose proof (reachable_wf _ _ _ _ capacity c Hu Hr) as Hwf.
  unfold miss, lookup in Hm.
  destruct (find c key) as [[hash fnd]|] eqn:Hf; [|done].
  simpl in Hm. injection Hm as ->.
  destruct (update_miss_eq _key_hash _ c key val hash Hwf Hf)
    as (lru & rest & node & Hus & Hnode & Hup).
  eexists lru, rest, hash, _. split; [done|]. split; [exact Hup|]. simpl.
  split; [done|]. split.
  - apply list_lookup_insert_eq. by apply lookup_lt_is_Some_1; eexists.
  - intros j Hj. by rewrite list_lookup_insert_ne.
Qed.

(** ** What the arena holds *)

Lemma find_hash (c : LruCache) (key : Key) (hash : N) (fnd : option nat) :
  find c key = Some (hash, fnd) →
  hash = (_key_hash key mod N.of_nat (length (_buckets c)))%N.
Proof.
  unfold find, bucket_hash.
  destruct (N.of_nat (length (_buckets c))) as [|size]; simpl; [done|].
  destruct (_buckets c !! _); simpl; [|done].
  destruct (range (_bucket_list c) _); simpl; [|done].
  destruct (walk _ _ _ _); simpl; [|done]. by intros [= <- _].
Qed.

Lemma update_arena (c c' : LruCache) (key : Key) (val : Val) :
  update c key val = Some c' →
  ∃ i, _arena c'
       = <[i := mkNode key val
                  (_key_hash key mod N.of_nat (length (_buckets c)))%N]> (_arena c).
Proof.
  unfold update. destruct (find c key) as [[hash [i|]]|] eqn:Hf; simpl; [| |done].
  - destruct (find_inv _key_hash c key hash i Hf) as (node & Hnode & Hk & Hh).
    rewrite Hnode. simpl. intros [= <-]. exists i. simpl.
    by rewrite Hk, Hh, (find_hash c key hash _ Hf).
  - rewrite (find_hash c key hash _ Hf).
    destruct (front (_usage_list c)) as [lru|]; simpl; [|done].
    destruct (_arena c !! lru); simpl; [|done].
    destruct (s_next (_bucket_list c) lru) as [[j|]|]; simpl; [| |done].
    + destruct (_ !! j); simpl; [|done].
      destruct (_buckets c !! _); simpl; [|done].
      intros [= <-]. exists lru. simpl. by rewrite list_insert_insert_eq.
    + destruct (_buckets c !! _); simpl; [|done].
      intros [= <-]. exists lru. simpl. by rewrite list_insert_insert_eq.
Qed.

Lemma elem_of_insert_inv (l : list Node) (i : nat) (x y : Node) :
  y ∈ <[i := x]> l → y = x ∨ y ∈ l.
Proof.
  intros [j Hj]%list_elem_of_lookup.
  apply list_lookup_insert_Some in Hj as [(_ & -> & _)|[_ Hj]]; [by left|].
  right. by eapply list_elem_of_lookup_2.
Qed.

Lemma exec_arena (calls : list (call Key Val)) :
  ∀ c0 c : LruCache, exec c0 calls = Some c →
    ∀ node, node ∈ _arena c →
      node ∈ _arena c0 ∨ Update (_key node) (_val node) ∈ calls.
Proof.
  induction calls as [|[key val|key] calls IH]; intros c0 c Hex node Hin;
    simpl in Hex.
  - injection Hex as <-. by left.
  - destruct (update c0 key val) as [c1|] eqn:Hup; simpl in Hex; [|done].
    destruct (IH c1 c Hex node Hin) as [Hin1|Hin1]; [|right; by right].
    destruct (update_arena c0 c1 key val Hup) as [i Ha]. rewrite Ha in Hin1.
    apply elem_of_insert_inv in Hin1 as [->|Hin1]; [|by left].
    right. left.
  - destruct (resolve c0 key) as [[val c1]|] eqn:Hre; simpl in Hex; [|done].
    destruct (IH c1 c Hex node Hin) as [Hin1|Hin1]; [|right; by right].
    left. by rewrite <- (proj1 (resolve_shape c0 c1 key val Hre)).
Qed.

(** X10 — [resolve] never hands out a value under a wrong key: a value it
    returns from a node it found was stored by an earlier [update] of that
    very key, or it is the default value of a node that still holds the
    default key. *)
Theorem resolve_returns_a_stored_value (capacity : N)
    (calls : list (call Key Val)) (c c' : LruCache) (key : Key) (val : Val) :
  exec (LruCache_ctor capacity) calls = Some c →
  hit c key → resolve c key = Some (val, c') →
  Update key val ∈ calls ∨ (key = Key_default ∧ val = Val_default).
Proof.
  intros Hex [i Hl] Hre. unfold lookup in Hl.
  destruct (find c key) as [[hash fnd]|] eqn:Hf; [|done].
  simpl in Hl. injection Hl as ->.
  destruct (find_inv _key_hash c key hash i Hf) as (node & Hnode & Hk & _).
  destruct (resolve_hit_eq Val_default _key_hash c key hash i Hf)
    as (node' & Hnode' & Hre').
  rewrite Hnode in Hnode'. injection Hnode' as <-.
  rewrite Hre' in Hre. injection Hre as <- _.
  destruct (exec_arena calls _ c Hex node) as [Hin|Hin].
  - by eapply list_elem_of_lookup_2.
  - right. simpl in Hin. apply elem_of_replicate in Hin as [-> _].
    by rewrite <- Hk.
  - left. by rewrite <- Hk.
Qed.

(** X11 — The cached hash of a node is the bucket of its key: in every
    reachable state a node is either as the constructor made it or carries
    the hash of its key modulo the size of the bucket table. *)
Theorem cached_hash_is_bucket_of_key (capacity : N) (c : LruCache) (i : nat)
    (node : Node) :
  reachable capacity c → _arena c !! i = Some node →
  node = empty_node ∨
  _cached_hash node
  = (_key_hash (_key node) mod ((capacity * LoadFactor) mod size_t_modulus))%N.
Proof.
  intros Hr. revert i node.
  induction Hr as [|c key val c' Hr IH Hup|c key val c' Hr IH Hre];
    intros i node Hnode.
  - left. simpl in Hnode. by apply lookup_replicate in Hnode as [-> _].
  - destruct (update_arena c c' key val Hup) as [j Ha]. rewrite Ha in Hnode.
    apply list_lookup_insert_Some in Hnode as [(_ & <- & _)|[_ Hnode]];
      [|by eapply IH].
    right. simpl. destruct (reachable_shape capacity c Hr) as (_ & -> & _).
    by rewrite N2Nat.id.
  - rewrite (proj1 (resolve_shape c c' key val Hre)) in Hnode. by eapply IH.
Qed.

(** X12 — At most [capacity] keys can be resolved: in every reachable state
    any list of pairwise different keys that are all found is no longer
    than the capacity. *)
Theorem found_keys_at_most_capacity (capacity : N) (c : LruCache)
    (keys : list Key) :
  reachable capacity c → NoDup keys → (∀ key, key ∈ keys → hit c key) →
  length keys ≤ N.to_nat capacity.
Proof.
  intros Hr Hnd Hhit.
  destruct (reachable_shape capacity c Hr) as (<- & _ & _).
  etrans; [|apply (live_keys_bound _key_hash c)].
  apply submseteq_length, NoDup_submseteq; [done|].
  intros key Hkey. apply hit_live. by apply Hhit.
Qed.

(** ** The static instance *)

Section StaticInstance.
Variable sizeof_Node : N.
Variable allocates : N → bool.

Abbreviation construct :=
  (construct Key_default Val_default LoadFactor sizeof_Node allocates).
Abbreviation constructs :=
  (constructs Key_default Val_default LoadFactor sizeof_Node allocates).
Abbreviation get_instance :=
  (get_instance Key_default Val_default LoadFactor sizeof_Node allocates).
Abbreviation get_instances :=
  (get_instances Key_default Val_default LoadFactor sizeof_Node allocates).

Lemma get_instances_exists (c : LruCache) (args : list N) :
  get_instances (Some c) args = Some c.
Proof. induction args as [|arg args IH]; [done|]. simpl. apply IH. Qed.

Lemma constructs_true (arg : N) :
  constructs arg = true → construct arg = Returned (LruCache_ctor arg).
Proof.
  unfold constructs, construct.
  destruct (vector_ctor _ sizeof_iterator _); [done|].
  by destruct (vector_ctor _ sizeof_Node _).
Qed.

Lemma constructs_false (arg : N) :
  constructs arg = false → snd (get_instance None arg) = None.
Proof.
  unfold constructs, get_instance. by destruct (construct arg).
Qed.

Lemma get_instances_thrown (failed args : list N) :
  Forall (λ a, constructs a = false) failed →
  get_instances None (failed ++ args) = get_instances None args.
Proof.
  induction 1 as [|a failed Ha _ IH]; [done|].
  change (get_instances (snd (get_instance None a)) (failed ++ args)
          = get_instances None args).
  by rewrite (constructs_false a Ha).
Qed.

(** X13 — [get_instance] constructs once.  Calls whose construction throws
    leave the static uninitialised; the first call whose construction
    succeeds initialises it with the cache of its own argument, and every
    later call returns that instance whatever its argument. *)
Theorem get_instance_constructs_once
    (failed : list N) (arg : N) (args : list N) (later : N) :
  Forall (λ a, constructs a = false) failed →
  constructs arg = true →
  get_instances None failed = None ∧
  get_instances None (failed ++ arg :: args) = Some (LruCache_ctor arg) ∧
  get_instance (get_instances None (failed ++ arg :: args)) later
  = (Returned (LruCache_ctor arg), Some (LruCache_ctor arg)) ∧
  length (_arena (LruCache_ctor arg)) = N.to_nat arg.
Proof.
  intros Hfailed Harg.
  assert (get_instances None (failed ++ arg :: args)
          = Some (LruCache_ctor arg)) as Hinst.
  { rewrite (get_instances_thrown _ _ Hfailed). simpl.
    unfold get_instance. rewrite (constructs_true arg Harg). simpl.
    apply get_instances_exists. }
  split_and!.
  - rewrite <- (app_nil_r failed) at 1.
    by rewrite (get_instances_thrown _ _ Hfailed).
  - done.
  - by rewrite Hinst.
  - simpl. by rewrite length_replicate.
Qed.

End StaticInstance.

(** ** With keys in different buckets the cache is a least-recently-used list *)

Abbreviation holds := (holds _key_hash).
Abbreviation represents := (represents Key_default Val_default _key_hash).

Lemma lru_get_None (s : list (Key * Val)) (key : Key) :
  lru_get s key = None ↔ key ∉ s.*1.
Proof.
  induction s as [|[k v] s IH]; simpl.
  - split; [intros _; apply not_elem_of_nil|done].
  - case_decide as Hk.
    + split; [done|]. intros Hn. destruct Hn. subst. left.
    + rewrite IH, not_elem_of_cons. intuition congruence.
Qed.

Lemma lru_get_Some (s : list (Key * Val)) (key : Key) (v : Val) :
  lru_get s key = Some v → (key, v) ∈ s.
Proof.
  induction s as [|[k v'] s IH]; simpl; [done|].
  case_decide as Hk; [intros [= <-]; subst; left|]. intros Hg. right. auto.
Qed.

Lemma lru_drop_keys (s : list (Key * Val)) (key k : Key) :
  NoDup s.*1 → k ∈ (lru_drop key s).*1 ↔ k ∈ s.*1 ∧ k ≠ key.
Proof.
  induction s as [|[k' v] s IH]; simpl; intros Hnd.
  - rewrite elem_of_nil. intuition congruence.
  - apply NoDup_cons in Hnd as [Hk' Hnd]. case_decide as Hd.
    + subst. rewrite elem_of_cons. split.
      * intros Hin. split; [by right|]. by intros ->.
      * intros [[->|Hin] Hne]; done.
    + simpl. rewrite !elem_of_cons, IH by done. intuition congruence.
Qed.

Lemma lru_drop_NoDup (s : list (Key * Val)) (key : Key) :
  NoDup s.*1 → NoDup (lru_drop key s).*1.
Proof.
  induction s as [|[k v] s IH]; simpl; intros Hnd; [done|].
  apply NoDup_cons in Hnd as [Hk Hnd]. case_decide; [done|]. simpl.
  apply NoDup_cons. split; [|by apply IH].
  rewrite lru_drop_keys by done. intuition congruence.
Qed.

Lemma Forall2_elem_impl {A B : Type} (P Q : A → B → Prop) (l : list A) (k : list B) :
  Forall2 P l k → (∀ x y, x ∈ l → y ∈ k → P x y → Q x y) → Forall2 Q l k.
Proof.
  induction 1 as [|x y l k Hxy _ IH]; intros Himp; constructor.
  - apply Himp; [left|left|done].
  - apply IH. intros x' y' Hx' Hy'. apply Himp; by right.
Qed.

Lemma Forall2_elem_l {A B : Type} (P : A → B → Prop) (l : list A) (k : list B) (x : A) :
  Forall2 P l k → x ∈ l → ∃ y, y ∈ k ∧ P x y.
Proof.
  induction 1 as [|x' y l k Hxy _ IH]; intros Hin; [by apply elem_of_nil in Hin|].
  apply elem_of_cons in Hin as [->|Hin].
  - exists y. split; [left|done].
  - destruct (IH Hin) as (y' & ? & ?). exists y'. split; [by right|done].
Qed.

Lemma Forall2_elem_r {A B : Type} (P : A → B → Prop) (l : list A) (k : list B) (y : B) :
  Forall2 P l k → y ∈ k → ∃ x, x ∈ l ∧ P x y.
Proof.
  induction 1 as [|x y' l k Hxy _ IH]; intros Hin; [by apply elem_of_nil in Hin|].
  apply elem_of_cons in Hin as [->|Hin].
  - exists x. split; [left|done].
  - destruct (IH Hin) as (x' & ? & ?). exists x'. split; [by right|done].
Qed.

Lemma Forall2_erase_drop (P : nat → Key * Val → Prop) (W : list nat)
    (s : list (Key * Val)) (w : nat) (key : Key) :
  Forall2 P W s →
  (∀ w' kv, w' ∈ W → kv ∈ s → P w' kv → (w' = w ↔ kv.1 = key)) →
  Forall2 P (erase w W) (lru_drop key s).
Proof.
  induction 1 as [|w1 [k1 v1] W s Hp HF IH]; intros Hiff; simpl; [constructor|].
  pose proof (Hiff w1 (k1, v1) ltac:(left) ltac:(left) Hp) as Hhd. simpl in Hhd.
  repeat case_decide; try done.
  - by destruct (proj1 Hhd).
  - by destruct (proj2 Hhd).
  - constructor; [done|]. apply IH. intros w' kv Hw' Hkv. apply Hiff; by right.
Qed.

Lemma erase_app_r (E W : list nat) (w : nat) :
  w ∉ E → erase w (E ++ W) = E ++ erase w W.
Proof.
  induction E as [|e E IH]; simpl; intros Hw; [done|].
  apply not_elem_of_cons in Hw as [Hne Hw].
  rewrite decide_False by done. by rewrite IH.
Qed.

Section Refinement.
Variable n : nat.
Variable size : N.
Variable K : list Key.
Hypothesis Hcf : collision_free size K.

Lemma find_cached (c : LruCache) (w : nat) (key : Key) (v : Val) :
  wf n c → N.of_nat (length (_buckets c)) = size → holds size c w (key, v) →
  find c key = Some ((_key_hash key mod size)%N, Some w).
Proof.
  intros Hwf Hsize [Ha Hb]. simpl in Ha, Hb.
  assert (w < n) as Hw.
  { rewrite <- (wf_arena _ _ Hwf). by apply lookup_lt_is_Some_1; eexists. }
  unfold find. rewrite bucket_hash_eq by apply (wf_size _ _ Hwf).
  rewrite Hsize. simpl. rewrite Hb. simpl.
  rewrite (wf_bucket_list _ _ Hwf), (nodes_from_slots n w Hw), slots_S. simpl.
  rewrite Ha. simpl. by rewrite !decide_True.
Qed.

Lemma find_uncached (c : LruCache) (E W : list nat) (s : list (Key * Val))
    (key : Key) :
  wf n c → N.of_nat (length (_buckets c)) = size →
  _usage_list c = E ++ W →
  Forall (λ e, _arena c !! e = Some empty_node) E →
  Forall2 (holds size c) W s →
  key ∈ K → key ∉ s.*1 →
  find c key = Some ((_key_hash key mod size)%N, None).
Proof.
  intros Hwf Hsize Hus HE HW HK Hkey.
  destruct (find_total _key_hash n c key Hwf) as [[i|] Hf];
    rewrite Hsize in Hf; [|done].
  exfalso. destruct (find_inv _key_hash c key _ i Hf) as (node & Hnode & Hk & Hh).
  assert (i ∈ E ++ W) as Hi.
  { rewrite <- Hus, (wf_usage _ _ Hwf). apply elem_of_seq.
    rewrite <- (wf_arena _ _ Hwf). split; [lia|].
    simpl. by apply lookup_lt_is_Some_1; eexists. }
  apply elem_of_app in Hi as [Hi|Hi].
  - rewrite Forall_forall in HE. rewrite (HE i Hi) in Hnode.
    injection Hnode as <-. simpl in Hh. by apply (proj1 Hcf key HK).
  - destruct (Forall2_elem_l _ _ _ i HW Hi) as ([k v] & Hkv & [Ha _]).
    simpl in Ha. rewrite Ha in Hnode. injection Hnode as <-. simpl in Hk.
    subst k. apply Hkey. by apply (list_elem_of_fmap_2 fst _ (key, v)).
Qed.

Lemma holds_same_node (c : LruCache) (w w' : nat) (kv kv' : Key * Val) :
  holds size c w kv → holds size c w' kv' → w' = w ↔ kv'.1 = kv.1.
Proof.
  intros [Ha Hb] [Ha' Hb']. split.
  - intros ->. rewrite Ha in Ha'. by injection Ha' as -> _.
  - intros Heq. rewrite Heq, Hb in Hb'. by injection Hb' as ->.
Qed.

(** The step of a call that finds its key. *)
Lemma represents_promote (c c' : LruCache) (s : list (Key * Val)) (key : Key)
    (v0 val : Val) (hash : N) (w : nat) :
  represents n size c s → lru_get s key = Some v0 →
  find c key = Some (hash, Some w) →
  wf n c' → _buckets c' = _buckets c →
  _arena c' = <[w := mkNode key val (_key_hash key mod size)%N]> (_arena c) →
  _usage_list c' = promote (_usage_list c) w →
  represents n size c' (lru_drop key s ++ [(key, val)]).
Proof.
  intros (Hwf & Hsize & Hnd & E & W & Hus & HE & HW) Hget Hf Hwf' Hb' Ha' Hus'.
  apply lru_get_Some in Hget.
  destruct (Forall2_elem_r _ _ _ _ HW Hget) as (w0 & Hw0 & Hholds).
  rewrite (find_cached c w0 key v0 Hwf Hsize Hholds) in Hf.
  injection Hf as _ <-.
  assert (NoDup (E ++ W)) as Hndu
    by (rewrite <- Hus, (wf_usage _ _ Hwf); apply NoDup_seq).
  apply NoDup_app in Hndu as (_ & Hdisj & HndW).
  assert (w0 ∉ E) as HwE by (intros Hin; by apply (Hdisj w0 Hin)).
  assert (w0 < length (_arena c)) as Hlt
    by (destruct Hholds as [Ha _]; by apply lookup_lt_is_Some_1; eexists).
  split; [done|]. split; [by rewrite Hb'|]. split.
  { rewrite fmap_app. simpl. apply NoDup_app. split; [by apply lru_drop_NoDup|].
    split; [|apply NoDup_singleton].
    intros k Hk%lru_drop_keys Hk'%list_elem_of_singleton; [|done]. intuition congruence. }
  exists E, (erase w0 W ++ [w0]). split.
  { rewrite Hus', Hus. unfold promote, push_back.
    by rewrite erase_app_r, <- app_assoc by done. }
  split.
  { rewrite Forall_forall in HE. apply Forall_forall. intros e He.
    rewrite Ha', list_lookup_insert_ne by (by intros ->). by apply HE. }
  apply Forall2_app.
  - eapply Forall2_elem_impl.
    + apply Forall2_erase_drop; [exact HW|].
      intros w' kv _ _ Hh. apply (holds_same_node c w0 w' (key, v0) kv); done.
    + intros x [k v] Hx _ [Hxa Hxb]. split; simpl in *.
      * rewrite Ha', list_lookup_insert_ne; [done|].
        intros <-. by apply (erase_not_in W w0 HndW).
      * by rewrite Hb'.
  - constructor; [|constructor]. destruct Hholds as [_ Hhb]. split; simpl in *.
    + rewrite Ha'. by apply list_lookup_insert_eq.
    + by rewrite Hb'.
Qed.

Lemma holds_preserved (c c' : LruCache) (w lru : nat) (kv : Key * Val)
    (x : Node) (hash old : N) (y z : iterator) :
  holds size c w kv →
  _arena c' = <[lru := x]> (_arena c) →
  _buckets c' = <[N.to_nat hash := y]> (<[N.to_nat old := z]> (_buckets c)) →
  w ≠ lru →
  (_key_hash kv.1 mod size)%N ≠ hash → (_key_hash kv.1 mod size)%N ≠ old →
  holds size c' w kv.
Proof.
  intros [Ha Hb] Ha' Hb' Hw Hh Ho. split.
  - rewrite Ha'. by rewrite list_lookup_insert_ne.
  - rewrite Hb'. rewrite !list_lookup_insert_ne; [done|lia|lia].
Qed.

(** The step of an [update] that does not find its key. *)
Lemma represents_insert (c : LruCache) (s : list (Key * Val)) (key : Key)
    (val : Val) :
  represents n size c s → (∀ k, k ∈ s.*1 → k ∈ K) → key ∈ K →
  lru_get s key = None →
  ∃ c', update c key val = Some c' ∧
        represents n size c'
          ((if decide (length s < n) then s else tail s) ++ [(key, val)]).
Proof.
  intros (Hwf & Hsize & Hnd & E & W & Hus & HE & HW) HsK HkeyK Hget.
  apply lru_get_None in Hget.
  pose proof (find_uncached c E W s key Hwf Hsize Hus HE HW HkeyK Hget) as Hf.
  destruct (update_miss_eq _key_hash n c key val _ Hwf Hf)
    as (lru & rest & node & Hus' & Hnode & Hup).
  match type of Hup with _ = Some ?c1 => remember c1 as c' eqn:Hc' end.
  pose proof (update_wf _key_hash n c c' key val Hwf Hup) as Hwf'.
  exists c'. split; [done|].
  assert (NoDup (E ++ W)) as Hndu
    by (rewrite <- Hus, (wf_usage _ _ Hwf); apply NoDup_seq).
  assert (length E + length W = n) as Hlen.
  { rewrite <- length_app, <- Hus, (wf_usage _ _ Hwf). apply length_seq. }
  pose proof (Forall2_length _ _ _ HW) as HlenW.
  assert (lru < length (_arena c)) as Hlru
    by (by apply lookup_lt_is_Some_1; eexists).
  assert (N.to_nat (_key_hash key mod size) < length (_buckets c)) as Hhash.
  { rewrite <- Hsize. apply hash_in_range, (wf_size _ _ Hwf). }
  assert (_arena c' = <[lru := mkNode key val (_key_hash key mod size)%N]> (_arena c))
    as Ha' by (by rewrite Hc').
  assert (_buckets c'
          = <[N.to_nat (_key_hash key mod size) := Some lru]>
              (<[N.to_nat (_cached_hash node) :=
                   next_in_bucket c lru (_cached_hash node)]> (_buckets c)))
    as Hb' by (by rewrite Hc').
  assert (_usage_list c' = rest ++ [lru]) as Husc by (by rewrite Hc').
  assert (holds size c' lru (key, val)) as Hnew.
  { split; simpl.
    - rewrite Ha'. by apply list_lookup_insert_eq.
    - rewrite Hb'. apply list_lookup_insert_eq. by rewrite length_insert. }
  assert (∀ k, k ∈ s.*1 → (_key_hash k mod size)%N ≠ (_key_hash key mod size)%N)
    as Hother.
  { intros k Hk Heq. apply Hget.
    by rewrite <- (proj2 Hcf k key (HsK k Hk) HkeyK Heq). }
  split; [done|]. split; [by rewrite Hb', !length_insert|].
  rewrite Hus in Hus'. destruct E as [|e E].
  - (* every node is in use: the least recently used entry is evicted *)
    simpl in Hus'. subst W. simpl in Hlen.
    apply Forall2_cons_inv_l in HW as ([k0 v0] & s0 & Hh0 & HW & ->).
    simpl in HlenW. rewrite decide_False by (simpl; lia). simpl.
    simpl in Hnd. apply NoDup_cons in Hnd as [Hk0 Hnd0].
    apply NoDup_cons in Hndu as [Hlrur Hndr].
    destruct Hh0 as [Ha0 Hb0]. simpl in Ha0, Hb0.
    rewrite Ha0 in Hnode. injection Hnode as <-. simpl in Hb'.
    split.
    { rewrite fmap_app. simpl. apply NoDup_app. split; [done|].
      split; [|apply NoDup_singleton].
      intros k Hk ->%list_elem_of_singleton. apply Hget. by right. }
    exists [], (rest ++ [lru]). split; [done|]. split; [constructor|].
    apply Forall2_app; [|constructor; [exact Hnew|constructor]].
    eapply Forall2_elem_impl; [exact HW|].
    intros w [k v] Hw Hkv Hh.
    assert (k ∈ s0.*1) as Hk by (by apply (list_elem_of_fmap_2 fst _ (k, v))).
    eapply holds_preserved; try done; simpl.
    + by intros ->.
    + apply Hother. by right.
    + intros Heq. apply Hk0.
      rewrite <- (proj2 Hcf k k0); [done|apply HsK; by right|apply HsK; left|done].
  - (* a node is still as constructed: nothing is evicted *)
    simpl in Hus'. injection Hus' as Hlrue Hreste. subst e rest. simpl in Hlen.
    rewrite decide_True by lia.
    apply Forall_cons_1 in HE as [He HE]. rewrite He in Hnode.
    injection Hnode as <-. simpl in Hb'.
    apply NoDup_cons in Hndu as [Hlrur Hndr].
    split.
    { rewrite fmap_app. simpl. apply NoDup_app. split; [done|].
      split; [|apply NoDup_singleton].
      by intros k Hk ->%list_elem_of_singleton. }
    exists E, (W ++ [lru]). split; [by rewrite Husc, <- app_assoc|]. split.
    { rewrite Forall_forall in HE. apply Forall_forall. intros e He'.
      rewrite Ha', list_lookup_insert_ne; [by apply HE|].
      intros <-. apply Hlrur. apply elem_of_app. by left. }
    apply Forall2_app; [|constructor; [exact Hnew|constructor]].
    eapply Forall2_elem_impl; [exact HW|].
    intros w [k v] Hw Hkv Hh.
    assert (k ∈ s.*1) as Hk by (by apply (list_elem_of_fmap_2 fst _ (k, v))).
    eapply holds_preserved; try done; simpl.
    + intros ->. apply Hlrur. apply elem_of_app. by right.
    + by apply Hother.
    + apply (proj1 Hcf). by apply HsK.
Qed.

Lemma run_refines (calls : list (call Key Val)) :
  ∀ (c : LruCache) (s : list (Key * Val)),
    represents n size c s → (∀ k, k ∈ s.*1 → k ∈ K) →
    (∀ k, k ∈ call_key <$> calls → k ∈ K) →
    run c calls = Some (lru_run n s calls).
Proof.
  induction calls as [|[key val|key] calls IH]; intros c s Hrep HsK HcK;
    [done| |].
  - assert (key ∈ K) as HkeyK by (apply HcK; left).
    assert (∀ k, k ∈ call_key <$> calls → k ∈ K) as HcK'
      by (intros k Hk; apply HcK; by right).
    simpl. unfold lru_update. destruct (lru_get s key) as [v0|] eqn:Hget.
    + pose proof Hrep as (Hwf & Hsize & Hnd & E & W & Hus & HE & HW).
      destruct (Forall2_elem_r _ _ _ _ HW (lru_get_Some _ _ _ Hget))
        as (w & Hw & Hholds).
      pose proof (find_cached c w key v0 Hwf Hsize Hholds) as Hf.
      pose proof (update_hit_eq _key_hash c key val _ w Hf) as Hup.
      rewrite Hup. simpl. apply IH; [|
        |done].
      * eapply (represents_promote c _ s key v0 val); try done.
        eapply update_wf; [exact Hwf|exact Hup].
      * intros k. rewrite fmap_app, elem_of_app. simpl.
        intros [Hk%lru_drop_keys|Hk%list_elem_of_singleton]; [|done|by subst].
        apply HsK, Hk.
    + destruct (represents_insert c s key val Hrep HsK HkeyK Hget)
        as (c' & -> & Hrep').
      simpl. apply IH; [done| |done].
      intros k. rewrite fmap_app, elem_of_app. simpl.
      intros [Hk|Hk%list_elem_of_singleton]; [|by subst].
      apply HsK. case_decide; [done|].
      destruct s as [|kv0 s0]; [done|]. by right.
  - assert (key ∈ K) as HkeyK by (apply HcK; left).
    assert (∀ k, k ∈ call_key <$> calls → k ∈ K) as HcK'
      by (intros k Hk; apply HcK; by right).
    simpl. unfold lru_resolve. destruct (lru_get s key) as [v0|] eqn:Hget.
    + pose proof Hrep as (Hwf & Hsize & Hnd & E & W & Hus & HE & HW).
      destruct (Forall2_elem_r _ _ _ _ HW (lru_get_Some _ _ _ Hget))
        as (w & Hw & Hholds).
      pose proof (find_cached c w key v0 Hwf Hsize Hholds) as Hf.
      destruct (resolve_hit_eq Val_default _key_hash c key _ w Hf)
        as (node & Hnode & Hre).
      rewrite (proj1 Hholds) in Hnode. injection Hnode as <-.
      unfold lookup. rewrite Hf, Hre. simpl. rewrite (IH _ (lru_drop key s ++ [(key, v0)])).
      * done.
      * eapply (represents_promote c _ s key v0 v0); try done.
        -- eapply resolve_wf; [exact Hwf|exact Hre].
        -- simpl. symmetry. apply list_insert_id. apply (proj1 Hholds).
      * intros k. rewrite fmap_app, elem_of_app. simpl.
        intros [Hk%lru_drop_keys|Hk%list_elem_of_singleton]; [|done|by subst].
        apply HsK, Hk.
      * done.
    + pose proof Hrep as (Hwf & Hsize & Hnd & E & W & Hus & HE & HW).
      pose proof (find_uncached c E W s key Hwf Hsize Hus HE HW HkeyK
                    (proj1 (lru_get_None s key) Hget)) as Hf.
      unfold lookup. rewrite Hf, (resolve_miss_eq Val_default _key_hash c key _ Hf).
      simpl. by rewrite (IH c s).
Qed.

End Refinement.

(** X14 — With keys in pairwise different buckets, none of them bucket 0,
    the cache answers like a least-recently-used list of [capacity]
    entries: for every series of calls on such keys, every [resolve]
    returns what the list returns, found or not found, value by value. *)
Theorem collision_free_cache_is_lru (capacity : N) (calls : list (call Key Val)) :
  usable capacity →
  collision_free ((capacity * LoadFactor) mod size_t_modulus)
    (call_key <$> calls) →
  run (LruCache_ctor capacity) calls
  = Some (lru_run (N.to_nat capacity) [] calls).
Proof.
  intros Hu Hcf.
  apply (run_refines (N.to_nat capacity) _ (call_key <$> calls) Hcf);
    [|by intros k ?%elem_of_nil|done].
  pose proof (ctor_wf Key_default Val_default LoadFactor capacity Hu) as Hwf.
  split; [done|]. split.
  { simpl. rewrite length_replicate. unfold usable in Hu. lia. }
  split; [constructor|].
  exists (_usage_list (LruCache_ctor capacity)), []. split; [by rewrite app_nil_r|].
  split; [|constructor]. apply Forall_forall. intros e He.
  simpl in *. rewrite push_front_all, app_nil_r in He.
  apply elem_of_slots in He. by apply lookup_replicate_2.
Qed.

End Behaviour.

(** X15 — The hash matters only through the bucket it selects: two hash
    functions that agree modulo the size of the bucket table on the keys of
    a series of calls give the same answers. *)
Theorem answers_depend_on_buckets_only {Key Val : Type} `{EqDecision Key}
    (Key_default : Key) (Val_default : Val) (LoadFactor : N)
    (h h' : Key → N) (capacity : N) (calls : list (call Key Val)) :
  (∀ key, key ∈ call_key <$> calls →
     (h key mod ((capacity * LoadFactor) mod size_t_modulus)
      = h' key mod ((capacity * LoadFactor) mod size_t_modulus))%N) →
  run Val_default h (LruCache_ctor Key_default Val_default LoadFactor capacity) calls
  = run Val_default h' (LruCache_ctor Key_default Val_default LoadFactor capacity) calls.
Proof.
  intros Hagree. apply run_hash_ext. intros key Hkey. simpl.
  rewrite length_replicate, N2Nat.id. by apply Hagree.
Qed.

(** ** What [main] prints *)

Lemma run_statements_hash_ext (h h' : string → N) (body : list statement) :
  ∀ (c : DnsCache.t) (ok : bool),
    (∀ key, key ∈ statement_key <$> body →
            (h key mod N.of_nat (length (_buckets c)))%N
            = (h' key mod N.of_nat (length (_buckets c)))%N) →
    run_statements h c body ok = run_statements h' c body ok.
Proof.
  induction body as [|[key val|key expected] body IH]; intros c ok Hk; [done| |].
  - assert (find h c key = find h' c key) as Hf
      by (apply find_hash_ext, Hk; left).
    assert (update h c key val = update h' c key val) as Hup
      by (unfold update; by rewrite Hf).
    simpl. rewrite <- Hup. destruct (update h c key val) as [c'|] eqn:Hc'; [|done].
    simpl. apply IH. intros k Hin.
    rewrite (update_buckets_length h c c' key val Hc'). apply Hk. by right.
  - assert (find h c key = find h' c key) as Hf
      by (apply find_hash_ext, Hk; left).
    assert (resolve "" h c key = resolve "" h' c key) as Hre
      by (unfold resolve; by rewrite Hf).
    simpl. rewrite <- Hre.
    destruct (resolve "" h c key) as [[val c']|] eqn:Hc'; [|done].
    simpl. apply IH. intros k Hin.
    rewrite (resolve_buckets_length "" h c c' key val Hc'). apply Hk. by right.
Qed.

(** The instance of [main]: [get_instance(2)] returns it when the
    allocator provides the 64 bytes of the eight bucket entries and the 192
    bytes of the two nodes. *)
Lemma main_instance (allocates : N → bool) :
  allocates 64%N = true → allocates 192%N = true →
  get_instance "" "" 4 DnsCache.sizeof_Node allocates None 2
  = (Returned (DnsCache.get_instance 2), Some (DnsCache.get_instance 2)).
Proof.
  intros Hbuckets Hnodes.
  unfold get_instance, construct.
  change ((2 * 4) mod size_t_modulus)%N with 8%N.
  unfold vector_ctor.
  change (8 * sizeof_iterator)%N with 64%N.
  change (2 * DnsCache.sizeof_Node)%N with 192%N.
  rewrite Hbuckets, Hnodes.
  by repeat case_decide.
Qed.

Lemma main_unfold (hash : string → N) :
  main hash = run_statements hash (DnsCache.get_instance 2) main_body true.
Proof. unfold main. by rewrite (main_instance (λ _, true)). Qed.

(** [main] evaluated for every placement of the four keys in the eight
    buckets. *)
Lemma main_checked :
  forallb (λ a, forallb (λ b, forallb (λ c, forallb (λ d,
    bool_decide (main (bucket_table a b c d)
                 = Some (bool_decide (a ≠ 0%N ∧ b ≠ a ∧ c ≠ a))))
    buckets8) buckets8) buckets8) buckets8 = true.
Proof. vm_compute. reflexivity. Qed.

Lemma main_buckets (hash : string → N) :
  main hash
  = main (bucket_table (hash "abc" mod 8) (hash "def" mod 8)
                       (hash "qwe" mod 8) (hash "iop" mod 8)).
Proof.
  assert (∀ x : N, x mod 8 < 8)%N as Hlt by (intros; apply N.mod_lt; lia).
  rewrite !main_unfold.
  apply run_statements_hash_ext. intros key Hkey.
  replace (length (_buckets (DnsCache.get_instance 2))) with 8
    by (by vm_compute).
  assert (∀ x : N, (x mod 8) mod 8 = x mod 8)%N as Hsmall
    by (intros; apply N.mod_small, Hlt).
  unfold bucket_table.
  repeat case_decide; subst; rewrite ?Hsmall; try done.
  exfalso. simpl in Hkey.
  repeat (apply elem_of_cons in Hkey as [->|Hkey]; [done|]).
  by apply elem_of_nil in Hkey.
Qed.

(** X16 — What the basic test of [main] prints, for every hash: the flag
    [ok] ends up [true] ("Ok: Basic test passed") exactly when the hash
    puts "abc" outside bucket 0 of the eight buckets and in a bucket that
    neither "def" nor "qwe" shares; otherwise it ends up [false] ("Error:
    Basic test failed").  No call of the test is undefined. *)
Theorem main_prints_ok_iff (hash : string → N) :
  main hash
  = Some (bool_decide ((hash "abc" mod 8 ≠ 0)%N ∧
                       (hash "def" mod 8 ≠ hash "abc" mod 8)%N ∧
                       (hash "qwe" mod 8 ≠ hash "abc" mod 8)%N)).
Proof.
  assert (∀ x : N, x mod 8 < 8)%N as Hlt by (intros; apply N.mod_lt; lia).
  rewrite main_buckets.
  pose proof main_checked as Hchk.
  apply (forallb_buckets8 _ (hash "abc" mod 8)%N) in Hchk; [|done].
  apply (forallb_buckets8 _ (hash "def" mod 8)%N) in Hchk; [|done].
  apply (forallb_buckets8 _ (hash "qwe" mod 8)%N) in Hchk; [|done].
  apply (forallb_buckets8 _ (hash "iop" mod 8)%N) in Hchk; [|done].
  cbv beta in Hchk. exact (bool_decide_eq_true_1 _ Hchk).
Qed.

(** * Examples on [DnsCache] *)

(** Values that [std::hash<std::string>] of libstdc++ returns on x86-64;
    the last key is longer than one 8-byte block. *)
Example std_hash_empty : GnuHash.std_hash "" = 6142509188972423790%N.
Proof. by vm_compute. Qed.

Example std_hash_abc : GnuHash.std_hash "abc" = 3663726644998027833%N.
Proof. by vm_compute. Qed.

Example std_hash_long :
  GnuHash.std_hash "0123456789abcdefgh" = 1927629762875750440%N.
Proof. by vm_compute. Qed.

Lemma dns_usable : usable 4 2.
Proof. by vm_compute. Defined.

Lemma after_abc_reachable :
  reachable "" "" 4 GnuHash.std_hash 2 after_abc.
Proof.
  eapply (reach_update "" "" 4 GnuHash.std_hash 2 _ "abc" "ABC");
    [apply reach_ctor|]. by vm_compute.
Defined.

Lemma after_abc_def_reachable :
  reachable "" "" 4 GnuHash.std_hash 2 after_abc_def.
Proof.
  eapply (reach_update "" "" 4 GnuHash.std_hash 2 _ "def" "DEF");
    [apply after_abc_reachable|]. by vm_compute.
Defined.

Lemma abc_empty_reachable :
  reachable "" "" 4 GnuHash.std_hash 2 abc_empty.
Proof.
  eapply (reach_update "" "" 4 GnuHash.std_hash 2 _ "abc" "");
    [apply reach_ctor|]. by vm_compute.
Defined.

(** C1 as the specification states it does not hold of the constructed
    cache: every node has bucket index 0, but bucket 0 is [end()] and its
    walk visits no node. *)
Lemma chain_integrity_fails : ¬ chain_integrity (DnsCache.get_instance 2).
Proof.
  intros Hc. destruct (Hc 0) as (l & Hl & Hiff); [vm_compute; lia|].
  vm_compute in Hl. injection Hl as <-.
  destruct (Hiff 0) as [_ Hin]. specialize (Hin eq_refl).
  by apply elem_of_nil in Hin.
Qed.

Lemma bucket_walk_sound_witness :
  usable 4 2 ∧ reachable "" "" 4 GnuHash.std_hash 2 after_abc_def ∧
  1 < length (_buckets after_abc_def) ∧
  ∃ it l rest,
    _buckets after_abc_def !! 1 = Some it ∧
    range (_bucket_list after_abc_def) it = Some (l ++ rest) ∧
    chain after_abc_def 1 = Some l ∧
    head l = it ∧
    (∀ i, i ∈ l → bucket_index after_abc_def i = Some (N.of_nat 1)) ∧
    (∀ j, head rest = Some j →
          ∃ h, bucket_index after_abc_def j = Some h ∧ h ≠ N.of_nat 1).
Proof.
  assert (1 < length (_buckets after_abc_def)) as Hb by (vm_compute; lia).
  split; [exact dns_usable|]. split; [exact after_abc_def_reachable|].
  split; [exact Hb|].
  exact (bucket_walk_sound "" "" 4 GnuHash.std_hash 2 after_abc_def 1
           dns_usable after_abc_def_reachable Hb).
Defined.

(** The basic test with the hash of GNU libstdc++: "abc" is in bucket 1,
    "def" in bucket 0 and "qwe" in bucket 6. *)
Lemma basic_test_results_witness :
  (GnuHash.std_hash "abc" mod 8 ≠ 0)%N ∧
  (GnuHash.std_hash "def" mod 8 ≠ GnuHash.std_hash "abc" mod 8)%N ∧
  (GnuHash.std_hash "qwe" mod 8 ≠ GnuHash.std_hash "abc" mod 8)%N ∧
  run "" GnuHash.std_hash (DnsCache.get_instance 2) basic_test
  = Some basic_test_answers.
Proof.
  assert (GnuHash.std_hash "abc" mod 8 ≠ 0)%N as Ha by (by vm_compute).
  assert (GnuHash.std_hash "def" mod 8 ≠ GnuHash.std_hash "abc" mod 8)%N
    as Hb by (by vm_compute).
  assert (GnuHash.std_hash "qwe" mod 8 ≠ GnuHash.std_hash "abc" mod 8)%N
    as Hc by (by vm_compute).
  split; [exact Ha|]. split; [exact Hb|]. split; [exact Hc|].
  exact (basic_test_results GnuHash.std_hash Ha Hb Hc).
Defined.

Lemma update_then_resolve_witness :
  usable 4 2 ∧ reachable "" "" 4 GnuHash.std_hash 2 after_abc_def ∧
  ∃ c1 c2,
    update GnuHash.std_hash after_abc_def "qwe" "QWE" = Some c1 ∧
    hit GnuHash.std_hash c1 "qwe" ∧
    resolve "" GnuHash.std_hash c1 "qwe" = Some ("QWE", c2).
Proof.
  split; [exact dns_usable|]. split; [exact after_abc_def_reachable|].
  exact (update_then_resolve "" "" 4 GnuHash.std_hash 2 after_abc_def
           "qwe" "QWE" dns_usable after_abc_def_reachable).
Defined.

(** C6 as the specification states it does not hold: with "abc" and "def"
    cached in a cache of capacity 2, [resolve("abc")] followed by the
    insertion of the two new keys "qwe" and "iop" evicts "abc". *)
Lemma promotion_on_read_fails :
  ¬ promotion_on_read "" "" 4 GnuHash.std_hash 2.
Proof.
  intros Hp.
  destruct (Hp after_abc_def "abc" "ABC" after_abc_def_read
              [("qwe", "QWE"); ("iop", "IOP")]) as [Hkeep _].
  - exact after_abc_def_reachable.
  - exists 1. by vm_compute.
  - by vm_compute.
  - unfold fresh. split; [|by repeat constructor].
    apply NoDup_cons. split; [|apply NoDup_singleton].
    by intros ?%list_elem_of_singleton.
  - destruct (Hkeep eq_refl) as (c' & Hc' & [i Hi]).
    vm_compute in Hc'. injection Hc' as <-. vm_compute in Hi. done.
Qed.

Lemma promoted_node_reused_last_witness :
  usable 4 2 ∧ reachable "" "" 4 GnuHash.std_hash 2 after_abc_def ∧
  lookup GnuHash.std_hash after_abc_def "abc" = Some (Some 1) ∧
  resolve "" GnuHash.std_hash after_abc_def "abc"
    = Some ("ABC", after_abc_def_read) ∧
  fresh after_abc_def_read [("qwe", "QWE"); ("iop", "IOP")].*1 ∧
  ∃ c', updates GnuHash.std_hash after_abc_def_read
          [("qwe", "QWE"); ("iop", "IOP")] = Some c' ∧
    (length [("qwe", "QWE"); ("iop", "IOP")] < N.to_nat 2 →
     ∃ node, _arena c' !! 1 = Some node ∧ _key node = "abc" ∧ _val node = "ABC") ∧
    (N.to_nat 2 ≤ length [("qwe", "QWE"); ("iop", "IOP")] →
     miss GnuHash.std_hash c' "abc").
Proof.
  assert (lookup GnuHash.std_hash after_abc_def "abc" = Some (Some 1)) as Hl
    by (by vm_compute).
  assert (resolve "" GnuHash.std_hash after_abc_def "abc"
          = Some ("ABC", after_abc_def_read)) as Hre by (by vm_compute).
  assert (fresh after_abc_def_read [("qwe", "QWE"); ("iop", "IOP")].*1) as Hfr.
  { unfold fresh. split; [|by repeat constructor].
    apply NoDup_cons. split; [|apply NoDup_singleton].
    by intros ?%list_elem_of_singleton. }
  split; [exact dns_usable|]. split; [exact after_abc_def_reachable|].
  split; [exact Hl|]. split; [exact Hre|]. split; [exact Hfr|].
  exact (promoted_node_reused_last "" "" 4 GnuHash.std_hash 2
           after_abc_def after_abc_def_read "abc" "ABC" 1
           [("qwe", "QWE"); ("iop", "IOP")]
           dns_usable after_abc_def_reachable Hl Hre Hfr).
Defined.

(** C7 as the specification states it does not hold: with "abc" stored
    with the empty string as its value, [resolve("abc")] finds the key and
    [resolve("def")] does not, and both return the empty string. *)
Lemma explicit_miss_signal_fails :
  ¬ explicit_miss_signal "" "" 4 GnuHash.std_hash 2.
Proof.
  intros Hs.
  apply (Hs abc_empty "def" "" abc_empty abc_empty "abc" "" abc_empty_read).
  - exact abc_empty_reachable.
  - by vm_compute.
  - by vm_compute.
  - exact abc_empty_reachable.
  - exists 1. by vm_compute.
  - by vm_compute.
  - done.
Qed.

Lemma resolve_returns_value_or_default_witness :
  usable 4 2 ∧ reachable "" "" 4 GnuHash.std_hash 2 abc_empty ∧
  ((miss GnuHash.std_hash abc_empty "abc" ∧
    resolve "" GnuHash.std_hash abc_empty "abc" = Some ("", abc_empty))
   ∨ (∃ i node c',
        lookup GnuHash.std_hash abc_empty "abc" = Some (Some i) ∧
        _arena abc_empty !! i = Some node ∧ _key node = "abc" ∧
        resolve "" GnuHash.std_hash abc_empty "abc" = Some (_val node, c') ∧
        _usage_list c' = promote (_usage_list abc_empty) i)).
Proof.
  split; [exact dns_usable|]. split; [exact abc_empty_reachable|].
  exact (resolve_returns_value_or_default "" "" 4 GnuHash.std_hash 2
           abc_empty "abc" dns_usable abc_empty_reachable).
Defined.

(** C8 as the specification states it does not hold, even with an
    allocator that provides every block asked for: constructing with
    capacity 0 returns a cache, and constructing with capacity 2^62, for
    which [capacity * LoadFactor] wraps to 0, is left by
    [std::length_error]. *)
Lemma rejects_zero_capacity_fails :
  ¬ rejects_zero_capacity "" "" 4 DnsCache.sizeof_Node (λ _, true) ∧
  construct "" "" 4 DnsCache.sizeof_Node (λ _, true) 0
  = Returned (DnsCache.get_instance 0) ∧
  construct "" "" 4 DnsCache.sizeof_Node (λ _, true) (2 ^ 62)
  = Thrown length_error.
Proof.
  split; [|by vm_compute].
  intros [Hzero _]. by vm_compute in Hzero.
Qed.

(** Without memory for it no cache with a node is constructed. *)
Example construct_bad_alloc :
  construct "" "" 4 DnsCache.sizeof_Node (λ _, false) 2
  = Thrown (Key := string) (Val := string) bad_alloc.
Proof. by vm_compute. Qed.

Lemma resolve_miss_frame_witness :
  miss GnuHash.std_hash after_abc_def "qwe" ∧
  ∃ val c',
    resolve "" GnuHash.std_hash after_abc_def "qwe" = Some (val, c') ∧
    _buckets c' = _buckets after_abc_def ∧ _arena c' = _arena after_abc_def ∧
    _usage_list c' = _usage_list after_abc_def.
Proof.
  assert (miss GnuHash.std_hash after_abc_def "qwe") as Hm by (by vm_compute).
  split; [exact Hm|].
  exact (resolve_miss_frame "" GnuHash.std_hash after_abc_def "qwe" Hm).
Defined.

(** [LruCache<size_t, std::string>] with the identity as hash: the default
    key 0 falls into bucket 0 whatever the capacity. *)
Lemma phantom_default_key_witness :
  usable 4 2 ∧ (2 ≤ 2)%N ∧
  (0 mod ((2 * 4) mod size_t_modulus) = 0)%N ∧
  1%N ≠ 0%N ∧
  ∃ c1 c2,
    update (λ key : N, key) (LruCache_ctor 0%N "" 4 2) 1%N "one" = Some c1 ∧
    lookup (λ key : N, key) c1 0%N = Some (Some (N.to_nat 2 - 2)) ∧
    _arena c1 !! (N.to_nat 2 - 2) = Some (mkNode 0%N "" 0) ∧
    resolve "" (λ key : N, key) c1 0%N = Some ("", c2) ∧
    last (_usage_list c2) = Some (N.to_nat 2 - 2).
Proof.
  assert (2 ≤ 2)%N as Hcap by lia.
  assert (0 mod ((2 * 4) mod size_t_modulus) = 0)%N as Hz by (by vm_compute).
  assert (1%N ≠ 0%N) as Hk by done.
  split; [exact dns_usable|]. split; [exact Hcap|]. split; [exact Hz|].
  split; [exact Hk|].
  exact (phantom_default_key 0%N "" 4 (λ key : N, key) 2 1%N "one"
           dns_usable Hcap Hz Hk).
Defined.

(** ** Where the bucket chains lose keys

    Under the hash of GNU libstdc++ the keys "abc" and "iop" share bucket 1
    of a cache of capacity 2, and "qwe" is in bucket 6. *)

(** C2 — at the failing input: "abc" and "iop" are both cached and are
    read in this order, so "iop" is the least recently used key when "qwe"
    is inserted; the insertion nevertheless makes "abc", the key read last,
    unresolvable as well. *)
Theorem recently_read_key_lost :
  run "" GnuHash.std_hash (DnsCache.get_instance 2)
    [ Update "abc" "1"; Update "iop" "2"; Update "abc" "3";
      Resolve "iop"; Resolve "abc";
      Update "qwe" "4";
      Resolve "abc"; Resolve "iop"; Resolve "qwe" ]
  = Some [ (true, "2"); (true, "3"); (false, ""); (false, ""); (true, "4") ].
Proof. by vm_compute. Qed.

(** C5 — at the failing input: after two distinct keys have been inserted
    into a cache of capacity 2, one key can be resolved, not two. *)
Theorem two_inserted_one_live :
  ∃ c,
    updates GnuHash.std_hash (DnsCache.get_instance 2)
      [("abc", "ABC"); ("iop", "IOP")] = Some c ∧
    live_keys GnuHash.std_hash c = ["iop"] ∧
    run "" GnuHash.std_hash c [Resolve "abc"; Resolve "iop"]
    = Some [(false, ""); (true, "IOP")].
Proof. eexists. split; [by vm_compute|]. split; by vm_compute. Qed.

(** ** Instances of the further properties *)

Lemma storage_is_fixed_witness :
  reachable "" "" 4 GnuHash.std_hash 2 after_abc_def ∧
  length (_arena after_abc_def) = N.to_nat 2 ∧
  length (_buckets after_abc_def) = N.to_nat ((2 * 4) mod size_t_modulus) ∧
  _bucket_list after_abc_def = reverse (seq 0 (N.to_nat 2)).
Proof.
  split; [exact after_abc_def_reachable|].
  exact (storage_is_fixed "" "" 4 GnuHash.std_hash 2 after_abc_def
           after_abc_def_reachable).
Defined.

Lemma calls_are_defined_witness :
  usable 4 2 ∧
  is_Some (run "" GnuHash.std_hash (LruCache_ctor "" "" 4 2) basic_test) ∧
  is_Some (exec "" GnuHash.std_hash (LruCache_ctor "" "" 4 2) basic_test).
Proof.
  split; [exact dns_usable|].
  exact (calls_are_defined "" "" 4 GnuHash.std_hash 2 basic_test dns_usable).
Defined.

Lemma usage_lists_every_node_once_witness :
  usable 4 2 ∧ reachable "" "" 4 GnuHash.std_hash 2 after_abc_def ∧
  NoDup (_usage_list after_abc_def) ∧
  length (_usage_list after_abc_def) = N.to_nat 2 ∧
  ∀ i, i ∈ _usage_list after_abc_def ↔ i < N.to_nat 2.
Proof.
  split; [exact dns_usable|]. split; [exact after_abc_def_reachable|].
  exact (usage_lists_every_node_once "" "" 4 GnuHash.std_hash 2 after_abc_def
           dns_usable after_abc_def_reachable).
Defined.

(** [LruCache<std::string, std::string, LoadFactor>] with a load factor of
    2^63 and capacity 2: the product wraps around to 0. *)
Lemma empty_table_is_undefined_witness :
  ((2 * 2 ^ 63) mod size_t_modulus = 0)%N ∧
  update GnuHash.std_hash (LruCache_ctor "" "" (2 ^ 63) 2) "abc" "ABC" = None ∧
  resolve "" GnuHash.std_hash (LruCache_ctor "" "" (2 ^ 63) 2) "abc" = None.
Proof.
  assert ((2 * 2 ^ 63) mod size_t_modulus = 0)%N as Hz by (by vm_compute).
  split; [exact Hz|].
  exact (empty_table_is_undefined "" "" (2 ^ 63) GnuHash.std_hash 2
           "abc" "ABC" Hz).
Defined.

Lemma update_of_cached_key_keeps_others_witness :
  lookup GnuHash.std_hash after_abc_def "abc" = Some (Some 1) ∧
  ∃ c' node,
    update GnuHash.std_hash after_abc_def "abc" "ABC!" = Some c' ∧
    _buckets c' = _buckets after_abc_def ∧
    _arena after_abc_def !! 1 = Some node ∧
    _arena c'
    = <[1 := mkNode (_key node) "ABC!" (_cached_hash node)]> (_arena after_abc_def) ∧
    ∀ key', lookup GnuHash.std_hash c' key'
            = lookup GnuHash.std_hash after_abc_def key'.
Proof.
  assert (lookup GnuHash.std_hash after_abc_def "abc" = Some (Some 1)) as Hl
    by (by vm_compute).
  split; [exact Hl|].
  exact (update_of_cached_key_keeps_others GnuHash.std_hash after_abc_def
           "abc" "ABC!" 1 Hl).
Defined.

Lemma touched_node_is_most_recent_witness :
  usable 4 2 ∧ reachable "" "" 4 GnuHash.std_hash 2 after_abc_def ∧
  (∀ val c', update GnuHash.std_hash after_abc_def "abc" val = Some c' →
     ∃ i, lookup GnuHash.std_hash c' "abc" = Some (Some i) ∧
          last (_usage_list c') = Some i) ∧
  (∀ i val c', lookup GnuHash.std_hash after_abc_def "abc" = Some (Some i) →
     resolve "" GnuHash.std_hash after_abc_def "abc" = Some (val, c') →
     lookup GnuHash.std_hash c' "abc" = Some (Some i) ∧
     last (_usage_list c') = Some i).
Proof.
  split; [exact dns_usable|]. split; [exact after_abc_def_reachable|].
  exact (touched_node_is_most_recent "" "" 4 GnuHash.std_hash 2 after_abc_def
           "abc" dns_usable after_abc_def_reachable).
Defined.

Lemma overwrite_twice_witness :
  usable 4 2 ∧ reachable "" "" 4 GnuHash.std_hash 2 after_abc_def ∧
  ∃ c1 c2 c3,
    update GnuHash.std_hash after_abc_def "qwe" "one" = Some c1 ∧
    update GnuHash.std_hash c1 "qwe" "two" = Some c2 ∧
    resolve "" GnuHash.std_hash c2 "qwe" = Some ("two", c3) ∧
    _buckets c2 = _buckets c1 ∧
    _key <$> _arena c2 = _key <$> _arena c1 ∧
    _usage_list c2 = _usage_list c1.
Proof.
  split; [exact dns_usable|]. split; [exact after_abc_def_reachable|].
  exact (overwrite_twice "" "" 4 GnuHash.std_hash 2 after_abc_def
           "qwe" "one" "two" dns_usable after_abc_def_reachable).
Defined.

Lemma resolve_keeps_answers_witness :
  resolve "" GnuHash.std_hash after_abc_def "abc"
    = Some ("ABC", after_abc_def_read) ∧
  _arena after_abc_def_read = _arena after_abc_def ∧
  _buckets after_abc_def_read = _buckets after_abc_def ∧
  ∀ key', fst <$> resolve "" GnuHash.std_hash after_abc_def_read key'
          = fst <$> resolve "" GnuHash.std_hash after_abc_def key'.
Proof.
  assert (resolve "" GnuHash.std_hash after_abc_def "abc"
          = Some ("ABC", after_abc_def_read)) as Hre by (by vm_compute).
  split; [exact Hre|].
  exact (resolve_keeps_answers "" GnuHash.std_hash after_abc_def
           after_abc_def_read "abc" "ABC" Hre).
Defined.

Lemma miss_reuses_front_node_witness :
  usable 4 2 ∧ reachable "" "" 4 GnuHash.std_hash 2 after_abc_def ∧
  miss GnuHash.std_hash after_abc_def "qwe" ∧
  ∃ lru rest hash c',
    _usage_list after_abc_def = lru :: rest ∧
    update GnuHash.std_hash after_abc_def "qwe" "QWE" = Some c' ∧
    _usage_list c' = rest ++ [lru] ∧
    _arena c' !! lru = Some (mkNode "qwe" "QWE" hash) ∧
    ∀ j, j ≠ lru → _arena c' !! j = _arena after_abc_def !! j.
Proof.
  assert (miss GnuHash.std_hash after_abc_def "qwe") as Hm by (by vm_compute).
  split; [exact dns_usable|]. split; [exact after_abc_def_reachable|].
  split; [exact Hm|].
  exact (miss_reuses_front_node "" "" 4 GnuHash.std_hash 2 after_abc_def
           "qwe" "QWE" dns_usable after_abc_def_reachable Hm).
Defined.

Lemma resolve_returns_a_stored_value_witness :
  exec "" GnuHash.std_hash (LruCache_ctor "" "" 4 2)
    [Update "abc" "ABC"; Update "def" "DEF"] = Some after_abc_def ∧
  hit GnuHash.std_hash after_abc_def "abc" ∧
  resolve "" GnuHash.std_hash after_abc_def "abc"
    = Some ("ABC", after_abc_def_read) ∧
  (Update "abc" "ABC" ∈ [Update "abc" "ABC"; Update "def" "DEF"]
   ∨ ("abc" = "" ∧ "ABC" = "")).
Proof.
  assert (exec "" GnuHash.std_hash (LruCache_ctor "" "" 4 2)
            [Update "abc" "ABC"; Update "def" "DEF"] = Some after_abc_def)
    as Hex by (by vm_compute).
  assert (hit GnuHash.std_hash after_abc_def "abc") as Hhit
    by (exists 1; by vm_compute).
  assert (resolve "" GnuHash.std_hash after_abc_def "abc"
          = Some ("ABC", after_abc_def_read)) as Hre by (by vm_compute).
  split; [exact Hex|]. split; [exact Hhit|]. split; [exact Hre|].
  exact (resolve_returns_a_stored_value "" "" 4 GnuHash.std_hash 2
           [Update "abc" "ABC"; Update "def" "DEF"]
           after_abc_def after_abc_def_read "abc" "ABC" Hex Hhit Hre).
Defined.

Lemma cached_hash_is_bucket_of_key_witness :
  reachable "" "" 4 GnuHash.std_hash 2 after_abc_def ∧
  _arena after_abc_def !! 1 = Some (mkNode "abc" "ABC" 1) ∧
  (mkNode "abc" "ABC" 1 = empty_node "" "" ∨
   _cached_hash (mkNode "abc" "ABC" 1)
   = (GnuHash.std_hash (_key (mkNode "abc" "ABC" 1))
      mod ((2 * 4) mod size_t_modulus))%N).
Proof.
  assert (_arena after_abc_def !! 1 = Some (mkNode "abc" "ABC" 1)) as Hn
    by (by vm_compute).
  split; [exact after_abc_def_reachable|]. split; [exact Hn|].
  exact (cached_hash_is_bucket_of_key "" "" 4 GnuHash.std_hash 2 after_abc_def
           1 (mkNode "abc" "ABC" 1) after_abc_def_reachable Hn).
Defined.

Lemma found_keys_at_most_capacity_witness :
  reachable "" "" 4 GnuHash.std_hash 2 after_abc_def ∧
  NoDup ["abc"; "def"] ∧
  (∀ key, key ∈ ["abc"; "def"] → hit GnuHash.std_hash after_abc_def key) ∧
  length ["abc"; "def"] ≤ N.to_nat 2.
Proof.
  assert (NoDup ["abc"; "def"]) as Hnd.
  { apply NoDup_cons. split; [|apply NoDup_singleton].
    by intros ?%list_elem_of_singleton. }
  assert (∀ key, key ∈ ["abc"; "def"] → hit GnuHash.std_hash after_abc_def key)
    as Hhit.
  { intros key Hkey. apply elem_of_cons in Hkey as [->|Hkey].
    - exists 1. by vm_compute.
    - apply list_elem_of_singleton in Hkey as ->. exists 0. by vm_compute. }
  split; [exact after_abc_def_reachable|]. split; [exact Hnd|].
  split; [exact Hhit|].
  exact (found_keys_at_most_capacity "" "" 4 GnuHash.std_hash 2 after_abc_def
           ["abc"; "def"] after_abc_def_reachable Hnd Hhit).
Defined.

Lemma collision_free_cache_is_lru_witness :
  usable 4 2 ∧
  collision_free GnuHash.std_hash ((2 * 4) mod size_t_modulus)
    (call_key <$> three_keys) ∧
  run "" GnuHash.std_hash (LruCache_ctor "" "" 4 2) three_keys
  = Some (lru_run "" (N.to_nat 2) [] three_keys).
Proof.
  assert (collision_free GnuHash.std_hash ((2 * 4) mod size_t_modulus)
            (call_key <$> three_keys)) as Hcf.
  { split.
    - intros key Hkey. simpl in Hkey.
      repeat (apply elem_of_cons in Hkey as [->|Hkey]; [by vm_compute|]).
      by apply elem_of_nil in Hkey.
    - intros k1 k2 H1 H2 Heq. simpl in H1, H2.
      repeat (apply elem_of_cons in H1 as [->|H1]);
        try (by apply elem_of_nil in H1);
        repeat (apply elem_of_cons in H2 as [->|H2]);
        try (by apply elem_of_nil in H2);
        first [reflexivity | by vm_compute in Heq]. }
  split; [exact dns_usable|]. split; [exact Hcf|].
  exact (collision_free_cache_is_lru "" "" 4 GnuHash.std_hash 2 three_keys
           dns_usable Hcf).
Defined.

Lemma answers_depend_on_buckets_only_witness :
  (∀ key, key ∈ call_key <$> basic_test →
     (GnuHash.std_hash key mod ((2 * 4) mod size_t_modulus)
      = (GnuHash.std_hash key mod 8) mod ((2 * 4) mod size_t_modulus))%N) ∧
  run "" GnuHash.std_hash (LruCache_ctor "" "" 4 2) basic_test
  = run "" (λ key, GnuHash.std_hash key mod 8)%N
        (LruCache_ctor "" "" 4 2) basic_test.
Proof.
  assert (∀ key, key ∈ call_key <$> basic_test →
     (GnuHash.std_hash key mod ((2 * 4) mod size_t_modulus)
      = (GnuHash.std_hash key mod 8) mod ((2 * 4) mod size_t_modulus))%N)
    as Hagree.
  { intros key _. change ((2 * 4) mod size_t_modulus)%N with 8%N.
    by rewrite N.Div0.mod_mod. }
  split; [exact Hagree|].
  exact (answers_depend_on_buckets_only "" "" 4 GnuHash.std_hash
           (λ key, GnuHash.std_hash key mod 8)%N 2 basic_test Hagree).
Defined.

Lemma colliding_key_lost_witness :
  usable 4 2 ∧ (2 ≤ 2)%N ∧ "abc" ≠ "iop" ∧ "abc" ≠ "" ∧ "iop" ≠ "" ∧
  (GnuHash.std_hash "abc" mod ((2 * 4) mod size_t_modulus)
   = GnuHash.std_hash "iop" mod ((2 * 4) mod size_t_modulus))%N ∧
  ∃ c2,
    updates GnuHash.std_hash (LruCache_ctor "" "" 4 2)
      [("abc", "ABC"); ("iop", "IOP")] = Some c2 ∧
    miss GnuHash.std_hash c2 "abc" ∧ hit GnuHash.std_hash c2 "iop" ∧
    (∃ i node, _arena c2 !! i = Some node ∧ _key node = "abc" ∧
               _val node = "ABC").
Proof.
  assert (2 ≤ 2)%N as Hcap by lia.
  assert ("abc" ≠ "iop") as Hab by done.
  assert ("abc" ≠ "") as Ha by done.
  assert ("iop" ≠ "") as Hb by done.
  assert (GnuHash.std_hash "abc" mod ((2 * 4) mod size_t_modulus)
          = GnuHash.std_hash "iop" mod ((2 * 4) mod size_t_modulus))%N
    as Hcoll by (by vm_compute).
  split; [exact dns_usable|]. split; [exact Hcap|]. split; [exact Hab|].
  split; [exact Ha|]. split; [exact Hb|]. split; [exact Hcoll|].
  exact (colliding_key_lost "" "" 4 GnuHash.std_hash 2 "abc" "iop" "ABC" "IOP"
           dns_usable Hcap Hab Ha Hb Hcoll).
Defined.

Lemma get_instance_constructs_once_witness :
  Forall (λ a, constructs "" "" 4 DnsCache.sizeof_Node (λ _, true) a = false)
         [(2 ^ 62)%N] ∧
  constructs "" "" 4 DnsCache.sizeof_Node (λ _, true) 2 = true ∧
  get_instances "" "" 4 DnsCache.sizeof_Node (λ _, true) None [(2 ^ 62)%N]
  = None ∧
  get_instances "" "" 4 DnsCache.sizeof_Node (λ _, true) None
    ([(2 ^ 62)%N] ++ 2%N :: [1024%N])
  = Some (LruCache_ctor "" "" 4 2) ∧
  get_instance "" "" 4 DnsCache.sizeof_Node (λ _, true)
    (get_instances "" "" 4 DnsCache.sizeof_Node (λ _, true) None
       ([(2 ^ 62)%N] ++ 2%N :: [1024%N])) 5
  = (Returned (LruCache_ctor "" "" 4 2), Some (LruCache_ctor "" "" 4 2)) ∧
  length (_arena (LruCache_ctor "" "" 4 2)) = N.to_nat 2.
Proof.
  assert (Forall (λ a, constructs "" "" 4 DnsCache.sizeof_Node (λ _, true) a
                       = false) [(2 ^ 62)%N]) as Hfailed
    by (constructor; [by vm_compute|constructor]).
  assert (constructs "" "" 4 DnsCache.sizeof_Node (λ _, true) 2 = true)
    as Harg by (by vm_compute).
  split; [exact Hfailed|]. split; [exact Harg|].
  exact (get_instance_constructs_once "" "" 4 DnsCache.sizeof_Node (λ _, true)
           [(2 ^ 62)%N] 2 [1024%N] 5 Hfailed Harg).
Defined.
